(** * witcher_quiz_bot: plan builder and session handlers

    A shallow embedding of [witcher_quiz_bot.py]: the question catalog, the
    two plan builders ([_build_all_levels_plan], [_build_single_level_plan])
    and the two conversation callbacks that carry the session state machine
    ([quiz], [handle_answer]).

    - Python dictionaries keyed by user id are [gmap Z _].
    - A question is a dict object; its identity (what [id(q)] returns) is
      kept next to its fields, because the builders deduplicate by identity.
    - The [random] module is a source of draws threaded through the code.
    - What the bot sends to the chat is a list of [Reply] values. *)

From stdpp Require Import gmap strings list fin_maps.

Set Default Proof Using "Type".

(** ** Questions *)

(** One JSON object of [questions.json]. [difficulty] and [explanation]
    are read with [dict.get], so they may be absent; a [difficulty] that is
    present is an integer. *)
Record Fields := {
  question : string;
  options : list string;
  correct_answer : string;
  difficulty : option Z;
  explanation : option string
}.

(** A loaded question: a dict object in memory. [obj_id] is the object's
    identity; two questions with equal fields are still two objects. *)
Record Question := {
  obj_id : nat;
  fields :> Fields
}.

(** [json.load] allocates one fresh dict per array element; with no file
    the catalog is the empty list. *)
Definition load_questions (file : option (list Fields)) : list Question :=
  match file with
  | Some records => imap (λ i r, {| obj_id := i; fields := r |}) records
  | None => []
  end.

(** [q.get('difficulty', 3)] *)
Definition get_difficulty (q : Question) : Z := default 3%Z (difficulty q).

(** ** The random module *)

(** The generator state is the sequence of raw draws still to come; an
    exhausted sequence keeps answering 0. *)
Definition rng := list nat.

(** [random._randbelow(n)] for [n > 0]. *)
Definition randbelow (n : nat) (g : rng) : nat * rng :=
  match g with
  | [] => (0, [])
  | d :: g' => (d mod n, g')
  end.

(** [x[i], x[j] = x[j], x[i]]: both reads happen before the two writes. *)
Definition swap {A} (i j : nat) (x : list A) : list A :=
  match x !! i, x !! j with
  | Some xi, Some xj => <[j := xi]> (<[i := xj]> x)
  | _, _ => x
  end.

(** The body of [random.shuffle]:
    [for i in reversed(range(1, len(x))): j = randbelow(i + 1); swap]. *)
Fixpoint shuffle_loop {A} (i : nat) (x : list A) (g : rng) : list A * rng :=
  match i with
  | 0 => (x, g)
  | S i' =>
      let i := S i' in
      let '(j, g) := randbelow (i + 1) g in
      shuffle_loop i' (swap i j x) g
  end.

Definition shuffle {A} (x : list A) (g : rng) : list A * rng :=
  shuffle_loop (length x - 1) x g.

(** ** Plan builders *)

Section builders.
(** The module-level catalog [questions], read-only after start-up. *)
Variable questions : list Question.

(** [groups = {lvl: [] for lvl in range(1, 6)}] *)
Definition empty_groups : gmap Z (list Question) :=
  list_to_map ((λ lvl, (lvl, [])) <$> [1; 2; 3; 4; 5]%Z).

(** One round of the grouping loop: append [q] to its level's list when
    the level is a key of [groups]. *)
Definition group_step (groups : gmap Z (list Question)) (q : Question)
  : gmap Z (list Question) :=
  let lvl := get_difficulty q in
  match groups !! lvl with
  | Some l => <[lvl := l ++ [q]]> groups
  | None => groups
  end.

Definition group_by_level (qs : list Question) : gmap Z (list Question) :=
  foldl group_step empty_groups qs.

(** [groups[lvl]] for a key that is present. *)
Definition group_of (groups : gmap Z (list Question)) (lvl : Z) : list Question :=
  default [] (groups !! lvl).

(** First pass: up to 2 questions of each level, in level order. *)
Fixpoint first_pass (groups : gmap Z (list Question)) (lvls : list Z)
    (plan : list Question) (g : rng) : list Question * rng :=
  match lvls with
  | [] => (plan, g)
  | lvl :: lvls' =>
      let pool := group_of groups lvl in
      let '(pool, g) := shuffle pool g in
      let take_n := 2 `min` length pool in
      first_pass groups lvls' (plan ++ take take_n pool) g
  end.

(** Second loop: every level's pool, shuffled, one after the other. *)
Fixpoint all_pools (groups : gmap Z (list Question)) (lvls : list Z)
    (remaining : list Question) (g : rng) : list Question * rng :=
  match lvls with
  | [] => (remaining, g)
  | lvl :: lvls' =>
      let pool := group_of groups lvl in
      let '(pool, g) := shuffle pool g in
      all_pools groups lvls' (remaining ++ pool) g
  end.

Definition levels : list Z := [1; 2; 3; 4; 5]%Z.

Definition _build_all_levels_plan (g : rng) : list Question * rng :=
  let groups := group_by_level questions in
  let '(plan, g) := first_pass groups levels [] g in
  let '(plan, g) :=
    if decide (length plan < 10) then
      let '(remaining, g) := all_pools groups levels [] g in
      let selected_ids : gset nat := list_to_set (obj_id <$> plan) in
      let remaining := filter (λ q, obj_id q ∉ selected_ids) remaining in
      let '(remaining, g) := shuffle remaining g in
      let need := 10 - length plan in
      (plan ++ take need remaining, g)
    else (plan, g) in
  let '(plan, g) := shuffle plan g in
  (take 10 plan, g).

Definition _build_single_level_plan (level : Z) (g : rng) : list Question * rng :=
  let pool := filter (λ q, get_difficulty q = level) questions in
  let '(pool, g) := shuffle pool g in
  (take 10 pool, g).

End builders.

(** [lvl in groups]: the keys of [groups] are the integers 1 to 5. *)
Definition in_levels (lvl : Z) : Prop := (1 ≤ lvl ≤ 5)%Z.

(** The questions of one level, in catalog order, and how many of a list
    belong to a level. *)
Definition of_level (lvl : Z) (qs : list Question) : list Question :=
  filter (λ q, get_difficulty q = lvl) qs.

Definition tier_count (lvl : Z) (qs : list Question) : nat :=
  length (of_level lvl qs).

(** The questions the all-levels builder can draw from. *)
Definition available (qs : list Question) : list Question :=
  filter (λ q, in_levels (get_difficulty q)) qs.

(** Distinct list entries are distinct objects. *)
Definition distinct_objects (qs : list Question) : Prop :=
  NoDup (obj_id <$> qs).

(** ** Session state *)

(** A value of [user_difficulty]: the string ["Все уровни"] or an integer. *)
Inductive Difficulty :=
  | AllLevels
  | Level (n : Z).

(** Return values of the conversation callbacks:
    [QUESTION, ANSWER, DIFFICULTY = range(3)] and [ConversationHandler.END]. *)
Inductive ConvState := QUESTION | ANSWER | DIFFICULTY | END.

(** The messages the callbacks send, one constructor per text template. *)
Inductive Reply :=
  | NotLoaded                                  (* catalog is empty *)
  | NoQuestionsAll                             (* empty plan, all levels *)
  | NoQuestionsForLevel (lvl : Z)              (* empty plan, one level *)
  | AskQuestion (number total : nat) (q : Question)
  | Correct (expl : string) (score : nat)
  | Wrong (right : string) (expl : string) (score : nat)
  | PleaseRestart                              (* no current question *)
  | Finished (final_score total : nat)         (* "{final_score} из {total}" *)
  | DifficultySet (d : Difficulty).

Inductive Exception := KeyError | IndexError.

Inductive Result (A : Type) :=
  | Ok (a : A)
  | Raise (e : Exception).
Arguments Ok {A} a.
Arguments Raise {A} e.

(** The module-level dictionaries, the per-user [context.user_data]
    (only its key ['current_question'] is used) and the generator. *)
Record State := {
  user_scores : gmap Z nat;
  user_difficulty : gmap Z Difficulty;
  user_question_list : gmap Z (list Question);
  user_question_index : gmap Z nat;
  current_question : gmap Z Question;
  random_state : rng
}.

(** Functional updates of one component of the state. *)
Definition upd_scores (f : gmap Z nat → gmap Z nat) (s : State) : State :=
  {| user_scores := f (user_scores s);
     user_difficulty := user_difficulty s;
     user_question_list := user_question_list s;
     user_question_index := user_question_index s;
     current_question := current_question s;
     random_state := random_state s |}.

Definition upd_difficulty (f : gmap Z Difficulty → gmap Z Difficulty) (s : State) : State :=
  {| user_scores := user_scores s;
     user_difficulty := f (user_difficulty s);
     user_question_list := user_question_list s;
     user_question_index := user_question_index s;
     current_question := current_question s;
     random_state := random_state s |}.

Definition upd_question_list
    (f : gmap Z (list Question) → gmap Z (list Question)) (s : State) : State :=
  {| user_scores := user_scores s;
     user_difficulty := user_difficulty s;
     user_question_list := f (user_question_list s);
     user_question_index := user_question_index s;
     current_question := current_question s;
     random_state := random_state s |}.

Definition upd_question_index (f : gmap Z nat → gmap Z nat) (s : State) : State :=
  {| user_scores := user_scores s;
     user_difficulty := user_difficulty s;
     user_question_list := user_question_list s;
     user_question_index := f (user_question_index s);
     current_question := current_question s;
     random_state := random_state s |}.

Definition upd_current_question
    (f : gmap Z Question → gmap Z Question) (s : State) : State :=
  {| user_scores := user_scores s;
     user_difficulty := user_difficulty s;
     user_question_list := user_question_list s;
     user_question_index := user_question_index s;
     current_question := f (current_question s);
     random_state := random_state s |}.

Definition upd_random_state (g : rng) (s : State) : State :=
  {| user_scores := user_scores s;
     user_difficulty := user_difficulty s;
     user_question_list := user_question_list s;
     user_question_index := user_question_index s;
     current_question := current_question s;
     random_state := g |}.

(** [if k not in d: d[k] = v] *)
Definition init_key {V} (k : Z) (v : V) (d : gmap Z V) : gmap Z V :=
  match d !! k with
  | Some _ => d
  | None => <[k := v]> d
  end.

(** [user_scores.get(user_id, 0)] *)
Definition score_of (s : State) (user_id : Z) : nat :=
  default 0 (user_scores s !! user_id).

(** [user_question_index.get(user_id, 0)] *)
Definition index_of (s : State) (user_id : Z) : nat :=
  default 0 (user_question_index s !! user_id).

(** [user_question_list.get(user_id, [])] *)
Definition plan_of (s : State) (user_id : Z) : list Question :=
  default [] (user_question_list s !! user_id).

(** ** Callbacks *)

(** [handle_difficulty] from its line [if difficulty == 0] on: [data] is
    the value [int(query.data)] returned. The conversion itself, which can
    raise, is [handle_difficulty_data] below. *)
Definition handle_difficulty (user_id : Z) (data : Z) (s : State)
  : State * list Reply * ConvState :=
  let d := if decide (data = 0%Z) then AllLevels else Level data in
  (upd_difficulty <[user_id := d]> s, [DifficultySet d], END).

(** The tail of [quiz] from "Fetch next question in the plan". *)
Definition present (user_id : Z) (plan : list Question) (idx : nat) (s : State)
  : Result (State * list Reply * ConvState) :=
  match plan !! idx with
  | None => Raise IndexError
  | Some q =>
      let s := upd_current_question <[user_id := q]> s in
      Ok (s, [AskQuestion (idx + 1) (length plan) q], QUESTION)
  end.

(** [not plan or idx >= len(plan)] on the value of
    [user_question_list.get(user_id)]. *)
Definition needs_new_plan (plan : option (list Question)) (idx : nat) : bool :=
  match plan with
  | None | Some [] => true
  | Some p => bool_decide (length p ≤ idx)
  end.

(** The choice of builder by the value of [user_difficulty[user_id]]. *)
Definition build_plan (questions : list Question) (d : Difficulty) (g : rng)
  : list Question * rng :=
  match d with
  | AllLevels => _build_all_levels_plan questions g
  | Level n => _build_single_level_plan questions n g
  end.

Definition quiz (questions : list Question) (user_id : Z) (s : State)
  : Result (State * list Reply * ConvState) :=
  let s := upd_scores (init_key user_id 0) s in
  let s := upd_difficulty (init_key user_id AllLevels) s in
  match questions with
  | [] => Ok (s, [NotLoaded], END)
  | _ :: _ =>
      let plan := user_question_list s !! user_id in
      let idx := index_of s user_id in
      if needs_new_plan plan idx then
        let s := upd_scores <[user_id := 0]> s in
        match user_difficulty s !! user_id with
        | None => Raise KeyError
        | Some d =>
            let '(plan, g) := build_plan questions d (random_state s) in
            let s := upd_random_state g s in
            match plan with
            | [] =>
                let msg := match d with
                           | AllLevels => NoQuestionsAll
                           | Level n => NoQuestionsForLevel n
                           end in
                Ok (s, [msg], END)
            | _ :: _ =>
                let s := upd_question_list <[user_id := plan]> s in
                let s := upd_question_index <[user_id := 0]> s in
                present user_id plan 0 s
            end
        end
      else present user_id (default [] plan) idx s
  end.

(** The [try] block of [handle_answer]: advance the index and, when the
    plan is used up, send the summary and reset plan and index. *)
Definition advance (user_id : Z) (s : State) : State * list Reply :=
  let s := upd_question_index <[user_id := index_of s user_id + 1]> s in
  let idx := index_of s user_id in
  let plan := plan_of s user_id in
  if decide (length plan ≤ idx) then
    let final_score := score_of s user_id in
    let total := match plan with [] => 10 | _ :: _ => length plan end in
    let s := upd_question_list <[user_id := []]> s in
    let s := upd_question_index <[user_id := 0]> s in
    (s, [Finished final_score total])
  else (s, []).

Definition handle_answer (user_id : Z) (user_answer : string) (s : State)
  : Result (State * list Reply * ConvState) :=
  match (current_question s !! user_id : option Question) with
  | None => Ok (s, [PleaseRestart], END)
  | Some q =>
      let expl := default "" (explanation q) in
      if decide (user_answer = correct_answer q) then
        let s := upd_scores <[user_id := score_of s user_id + 1]> s in
        match user_scores s !! user_id with
        | None => Raise KeyError
        | Some sc =>
            let '(s, out) := advance user_id s in
            Ok (s, Correct expl sc :: out, END)
        end
      else
        match user_scores s !! user_id with
        | None => Raise KeyError
        | Some sc =>
            let '(s, out) := advance user_id s in
            Ok (s, Wrong (correct_answer q) expl sc :: out, END)
        end
  end.

(** [quiz] stores a current question only after it has made sure the user
    has a score, and no callback removes a score. *)
Definition session_inv (s : State) : Prop :=
  ∀ u, is_Some (current_question s !! u) → is_Some (user_scores s !! u).

(** ** Sample catalogs and sessions *)

Definition sample (text right wrong : string) (lvl : option Z) : Fields :=
  {| question := text; options := [right; wrong]; correct_answer := right;
     difficulty := lvl; explanation := None |}.

(** Two questions on each level. *)
Definition full_catalog : list Question :=
  load_questions (Some
    [ sample "q1a" "Geralt" "Vesemir" (Some 1%Z); sample "q1b" "Roach" "Kelpie" (Some 1%Z);
      sample "q2a" "Yennefer" "Triss" (Some 2%Z); sample "q2b" "Ciri" "Pavetta" (Some 2%Z);
      sample "q3a" "Jaskier" "Zoltan" None;         sample "q3b" "Kaer Morhen" "Brokilon" (Some 3%Z);
      sample "q4a" "Cintra" "Nilfgaard" (Some 4%Z); sample "q4b" "Sodden" "Brenna" (Some 4%Z);
      sample "q5a" "Aen Elle" "Aen Seidhe" (Some 5%Z); sample "q5b" "Ithlinne" "Avallac'h" (Some 5%Z) ]).

(** One question on level 1, one without a level (so level 3), and two
    whose level is not in 1..5. *)
Definition sparse_catalog : list Question :=
  load_questions (Some
    [ sample "a" "Geralt" "Vesemir" (Some 1%Z); sample "b" "Jaskier" "Zoltan" None;
      sample "c" "Ciri" "Pavetta" (Some 7%Z);   sample "d" "Roach" "Kelpie" (Some 0%Z) ]).

(** Three questions, all on level 1. *)
Definition easy_catalog : list Question :=
  load_questions (Some
    [ sample "a" "Geralt" "Vesemir" (Some 1%Z); sample "b" "Roach" "Kelpie" (Some 1%Z);
      sample "c" "Ciri" "Pavetta" (Some 1%Z) ]).

Definition initial_state (g : rng) : State :=
  {| user_scores := ∅; user_difficulty := ∅; user_question_list := ∅;
     user_question_index := ∅; current_question := ∅; random_state := g |}.

(** ** Events *)

(** The updates the dispatcher hands to the callbacks. *)
Inductive Event :=
  | StartQuiz (user_id : Z)                      (* /quiz *)
  | SubmitAnswer (user_id : Z) (data : string)   (* a button of the question *)
  | SelectDifficulty (user_id : Z) (data : Z).   (* a button of /difficulty *)

Definition step (questions : list Question) (e : Event) (s : State)
  : Result (State * list Reply * ConvState) :=
  match e with
  | StartQuiz u => quiz questions u s
  | SubmitAnswer u a => handle_answer u a s
  | SelectDifficulty u d => Ok (handle_difficulty u d s)
  end.

(** Run a sequence of events, collecting every reply. *)
Fixpoint run (questions : list Question) (es : list Event) (s : State)
  : Result (State * list Reply) :=
  match es with
  | [] => Ok (s, [])
  | e :: es' =>
      match step questions e s with
      | Raise x => Raise x
      | Ok (s, out, _) =>
          match run questions es' s with
          | Raise x => Raise x
          | Ok (s, out') => Ok (s, out ++ out')
          end
      end
  end.

(** The state a sequence of events leads to (the start state if a
    callback raised). *)
Definition state_after (questions : list Question) (es : list Event) (s : State)
  : State :=
  match run questions es s with
  | Ok (s', _) => s'
  | Raise _ => s
  end.

Definition draws : rng := [3; 1; 4; 1; 5; 9; 2; 6; 5; 3; 5; 8; 9; 7; 9; 3].

(** User 7 has just been shown the first of three questions. *)
Definition asked_state : State :=
  state_after easy_catalog [StartQuiz 7] (initial_state draws).

(** User 7 is on the last of three questions, with two right answers. *)
Definition last_question_state : State :=
  state_after easy_catalog
    [StartQuiz 7; SubmitAnswer 7 "Ciri"; StartQuiz 7; SubmitAnswer 7 "Roach";
     StartQuiz 7] (initial_state draws).

(** User 7 finished that quiz with 3 points and then chose level 3. *)
Definition finished_state : State :=
  state_after easy_catalog
    [SubmitAnswer 7 "Geralt"; SelectDifficulty 7 3] last_question_state.

(** ** The score callback and bookkeeping for whole sessions *)

(** What [score] sends: the stored score with
    [user_difficulty.get(user_id, 'не выбран')] ([None] for that default),
    or the hint that the user has not played yet. *)
Inductive ScoreReply :=
  | ScoreReport (current : nat) (difficulty_level : option Difficulty)
  | NeverPlayed.

Definition score (user_id : Z) (s : State) : ScoreReply :=
  match user_scores s !! user_id with
  | Some n => ScoreReport n (user_difficulty s !! user_id)
  | None => NeverPlayed
  end.

(** [update.effective_user.id] of an event. *)
Definition event_user (e : Event) : Z :=
  match e with
  | StartQuiz u | SubmitAnswer u _ | SelectDifficulty u _ => u
  end.

(** Everything the dictionaries hold for one user. *)
Definition user_view (s : State) (u : Z)
  : option nat * option Difficulty * option (list Question) * option nat
    * option Question :=
  (user_scores s !! u, user_difficulty s !! u, user_question_list s !! u,
   user_question_index s !! u, current_question s !! u).

(** A stored plan with questions in it is at most 10 long, its index points
    into it, and the score does not exceed the index. *)
Definition plan_inv (s : State) : Prop :=
  ∀ u, plan_of s u ≠ [] →
    index_of s u < length (plan_of s u) ∧
    length (plan_of s u) ≤ 10 ∧
    score_of s u ≤ index_of s u.

(** The events of a user who sends /quiz and presses a button, once for
    each answer. *)
Definition rounds (u : Z) (answers : list string) : list Event :=
  answers ≫= λ a, [StartQuiz u; SubmitAnswer u a].

(** How many of the answers, given in plan order, are the right ones. *)
Definition count_correct (plan : list Question) (answers : list string) : nat :=
  length (filter (λ qa : Question * string, qa.2 = correct_answer qa.1)
            (zip plan answers)).

(** User 7 has answered the first question; the callback returned [END]
    and no /quiz has followed yet. *)
Definition answered_state : State :=
  state_after easy_catalog [SubmitAnswer 7 "Ciri"] asked_state.

(** ** Callbacks on the data the dispatcher delivers *)

(** What a callback can raise: the two lookup errors of [Exception], and
    the [ValueError] of [int(query.data)]. *)
Inductive Raised :=
  | LookupError (e : Exception)
  | ValueError.

Inductive Outcome (A : Type) :=
  | Returned (a : A)
  | Failed (e : Raised).
Arguments Returned {A} a.
Arguments Failed {A} e.

Definition lift {A} (r : Result A) : Outcome A :=
  match r with
  | Ok a => Returned a
  | Raise e => Failed (LookupError e)
  end.

(** The whole of [handle_difficulty]. [int] stands for Python's built-in
    on strings, [None] where it raises [ValueError]; the conversion is the
    first statement that can fail and comes before any write. *)
Definition handle_difficulty_data (int : string → option Z)
    (user_id : Z) (data : string) (s : State)
  : Outcome (State * list Reply * ConvState) :=
  match int data with
  | None => Failed ValueError
  | Some difficulty => Returned (handle_difficulty user_id difficulty s)
  end.

(** An update with its callback text as received: /quiz, or a pressed
    button routed to [handle_answer] or to [handle_difficulty]. Any text
    can arrive at either. *)
Inductive Update :=
  | QuizCommand (user_id : Z)
  | AnswerButton (user_id : Z) (data : string)
  | DifficultyButton (user_id : Z) (data : string).

Definition dispatch (int : string → option Z) (questions : list Question)
    (upd : Update) (s : State) : Outcome (State * list Reply * ConvState) :=
  match upd with
  | QuizCommand u => lift (quiz questions u s)
  | AnswerButton u data => lift (handle_answer u data s)
  | DifficultyButton u data => handle_difficulty_data int u data s
  end.

(** The states the bot passes through: it starts with empty dictionaries,
    and every callback that returns leads to the next state. (The one
    callback that can fail, fails before it has written anything.) *)
Inductive reachable (int : string → option Z) (questions : list Question)
  : State → Prop :=
  | reachable_start g : reachable int questions (initial_state g)
  | reachable_step s upd s' out c :
      reachable int questions s →
      dispatch int questions upd s = Returned (s', out, c) →
      reachable int questions s'.

(** A stand-in for [int] on the texts used in the examples. *)
Definition sample_int (data : string) : option Z :=
  if decide (data = "0") then Some 0%Z
  else if decide (data = "3") then Some 3%Z
  else None.

(** * Properties *)

(** ** [random.shuffle] permutes its argument *)

(** A draw is below its bound, and every value below the bound can be
    drawn: the generator states range over all runs of the [random] module. *)
Lemma randbelow_lt n g : 0 < n → (randbelow n g).1 < n.
Proof.
  intros Hn. destruct g as [|d g]; simpl; [done|].
  apply Nat.mod_upper_bound. lia.
Qed.

Lemma randbelow_any n j g : j < n → randbelow n (j :: g) = (j, g).
Proof. intros Hj. simpl. by rewrite Nat.mod_small. Qed.

Lemma insert_head_Permutation {A} (x : list A) (j : nat) (a b : A) :
  x !! j = Some b → b :: <[j := a]> x ≡ₚ a :: x.
Proof.
  intros Hj.
  rewrite insert_take_drop by (by eapply lookup_lt_Some).
  rewrite <- (take_drop_middle x j b Hj) at 3.
  rewrite <- !Permutation_middle. apply perm_swap.
Qed.

Lemma swap_Permutation {A} (i j : nat) (x : list A) : swap i j x ≡ₚ x.
Proof.
  unfold swap.
  destruct (x !! i) as [xi|] eqn:Hi; [|done].
  destruct (x !! j) as [xj|] eqn:Hj; [|done].
  revert i j Hi Hj. induction x as [|a x IH]; intros [|i] [|j] Hi Hj;
    simplify_eq/=; try done.
  - by apply insert_head_Permutation.
  - by apply insert_head_Permutation.
  - f_equiv. by apply IH.
Qed.

Lemma shuffle_loop_Permutation {A} (i : nat) (x : list A) (g : rng) :
  (shuffle_loop i x g).1 ≡ₚ x.
Proof.
  revert x g. induction i as [|i IH]; intros x g; [done|].
  cbn [shuffle_loop]. destruct (randbelow _ g) as [j g'].
  rewrite IH. apply swap_Permutation.
Qed.

Lemma shuffle_Permutation {A} (x : list A) (g : rng) : (shuffle x g).1 ≡ₚ x.
Proof. apply shuffle_loop_Permutation. Qed.

Lemma shuffle_length {A} (x : list A) (g : rng) :
  length (shuffle x g).1 = length x.
Proof. by rewrite shuffle_Permutation. Qed.

(** The draws select the arrangement: all six orders of a three-element
    list are reached. *)
Example shuffle_three :
  (shuffle [1; 2; 3] [0; 0]).1 = [2; 3; 1] ∧
  (shuffle [1; 2; 3] [2; 1]).1 = [1; 2; 3] ∧
  (shuffle [1; 2; 3] [1; 0]).1 = [3; 1; 2] ∧
  (shuffle [1; 2; 3] [0; 1]).1 = [3; 2; 1] ∧
  (shuffle [1; 2; 3] [1; 1]).1 = [1; 3; 2] ∧
  (shuffle [1; 2; 3] [2; 0]).1 = [2; 1; 3].
Proof. done. Qed.

(** ** Grouping by level *)

Lemma elem_of_levels lvl : lvl ∈ levels ↔ in_levels lvl.
Proof.
  unfold levels, in_levels. rewrite !elem_of_cons, elem_of_nil. lia.
Qed.

Lemma NoDup_levels : NoDup levels.
Proof. unfold levels. by apply (bool_decide_unpack _). Qed.

Lemma empty_groups_lookup lvl :
  empty_groups !! lvl = if decide (in_levels lvl) then Some [] else None.
Proof.
  unfold empty_groups, in_levels. simpl.
  rewrite !lookup_insert, lookup_empty.
  repeat case_decide; first [done|lia].
Qed.

Lemma foldl_group_step_lookup qs groups lvl :
  foldl group_step groups qs !! lvl =
    (λ l, l ++ of_level lvl qs) <$> groups !! lvl.
Proof.
  unfold of_level. revert groups. induction qs as [|q qs IH]; intros groups; simpl.
  { destruct (groups !! lvl); simpl; by rewrite ?app_nil_r. }
  rewrite IH. unfold group_step.
  destruct (groups !! get_difficulty q) as [l|] eqn:Hq.
  - destruct (decide (get_difficulty q = lvl)) as [<-|Hne].
    + rewrite lookup_insert_eq, Hq. simpl. rewrite filter_cons_True by done.
      by rewrite <- app_assoc.
    + rewrite lookup_insert_ne by done. by rewrite filter_cons_False.
  - destruct (decide (get_difficulty q = lvl)) as [<-|Hne].
    + by rewrite Hq.
    + by rewrite filter_cons_False.
Qed.

Lemma group_of_by_level qs lvl :
  group_of (group_by_level qs) lvl =
    if decide (in_levels lvl) then of_level lvl qs else [].
Proof.
  unfold group_of, group_by_level.
  rewrite foldl_group_step_lookup, empty_groups_lookup.
  by case_decide.
Qed.

(** ** Helper facts on sub-multisets and identities *)

Lemma submseteq_distinct (l k : list Question) :
  l ⊆+ k → distinct_objects k → distinct_objects l.
Proof.
  unfold distinct_objects. intros Hsub Hk.
  apply (fmap_submseteq obj_id) in Hsub.
  apply submseteq_Permutation in Hsub as [r Hr].
  rewrite Hr in Hk. by apply NoDup_app in Hk as (? & _ & _).
Qed.

Lemma distinct_objects_NoDup (l : list Question) : distinct_objects l → NoDup l.
Proof. apply NoDup_fmap_1. Qed.

Lemma filter_all {A} (P : A → Prop) `{∀ x, Decision (P x)} (l : list A) :
  Forall P l → filter P l = l.
Proof.
  induction 1 as [|x l Hx _ IH]; [done|].
  by rewrite filter_cons_True, IH.
Qed.

Lemma filter_none {A} (P : A → Prop) `{∀ x, Decision (P x)} (l : list A) :
  Forall (λ x, ¬ P x) l → filter P l = [].
Proof.
  induction 1 as [|x l Hx _ IH]; [done|].
  by rewrite filter_cons_False, IH.
Qed.

(** Dropping the selected identities from a list that holds the selection
    leaves exactly the rest. *)
Lemma filter_unselected (plan rest : list Question) :
  distinct_objects (plan ++ rest) →
  filter (λ q, obj_id q ∉ (list_to_set (obj_id <$> plan) : gset nat)) (plan ++ rest)
  = rest.
Proof.
  unfold distinct_objects. rewrite fmap_app. intros Hnd.
  apply NoDup_app in Hnd as (_ & Hdisj & _).
  rewrite filter_app, filter_none, filter_all; [done| |].
  - apply Forall_forall. intros q Hq. rewrite elem_of_list_to_set.
    intros Hq'. apply (Hdisj _ Hq'). by apply list_elem_of_fmap_2.
  - apply Forall_forall. intros q Hq Hq'. apply Hq'.
    rewrite elem_of_list_to_set. by apply list_elem_of_fmap_2.
Qed.

(** Splitting by level and gluing the levels back loses nothing. *)
Lemma filter_disjoint_app {A} (P Q : A → Prop)
    `{∀ x, Decision (P x)} `{∀ x, Decision (Q x)} (l : list A) :
  (∀ x, P x → Q x → False) →
  filter P l ++ filter Q l ≡ₚ filter (λ x, P x ∨ Q x) l.
Proof.
  intros Hdisj. induction l as [|x l IH]; [done|].
  destruct (decide (P x)) as [HP|HP]; destruct (decide (Q x)) as [HQ|HQ].
  - by destruct (Hdisj x).
  - rewrite (filter_cons_True P), (filter_cons_False Q), filter_cons_True by tauto.
    simpl. by f_equiv.
  - rewrite (filter_cons_False P), (filter_cons_True Q), filter_cons_True by tauto.
    rewrite <- Permutation_middle. by f_equiv.
  - rewrite (filter_cons_False P), (filter_cons_False Q), filter_cons_False by tauto.
    done.
Qed.

Lemma concat_of_level lvls (qs : list Question) :
  NoDup lvls →
  concat ((λ lvl, of_level lvl qs) <$> lvls)
  ≡ₚ filter (λ q, get_difficulty q ∈ lvls) qs.
Proof.
  induction 1 as [|lvl lvls Hlvl _ IH]; simpl.
  { symmetry. apply Permutation_nil_r. apply filter_none, Forall_forall.
    intros q _. apply not_elem_of_nil. }
  rewrite IH. unfold of_level. rewrite filter_disjoint_app.
  - erewrite list_filter_iff; [done|]. intros q. rewrite elem_of_cons. tauto.
  - intros q -> ?. done.
Qed.

Lemma concat_groups qs :
  concat (group_of (group_by_level qs) <$> levels) ≡ₚ available qs.
Proof.
  transitivity (concat ((λ lvl, of_level lvl qs) <$> levels)).
  - unfold levels. simpl. rewrite !group_of_by_level.
    repeat (rewrite decide_True by (unfold in_levels; lia)). done.
  - rewrite concat_of_level by apply NoDup_levels.
    unfold available. erewrite list_filter_iff; [done|].
    intros q. apply elem_of_levels.
Qed.

(** ** The first pass and the pooled remainder *)

#[local] Arguments Nat.min : simpl never.

Lemma first_pass_acc groups lvls plan g :
  first_pass groups lvls plan g =
    (plan ++ (first_pass groups lvls [] g).1, (first_pass groups lvls [] g).2).
Proof.
  revert plan g. induction lvls as [|lvl lvls IH]; intros plan g; simpl.
  { by rewrite app_nil_r. }
  destruct (shuffle (group_of groups lvl) g) as [pool g'].
  rewrite (IH (plan ++ _)), (IH (take _ _)). simpl. by rewrite app_assoc.
Qed.

Lemma first_pass_cons groups lvl lvls g :
  let pool := (shuffle (group_of groups lvl) g).1 in
  let g' := (shuffle (group_of groups lvl) g).2 in
  first_pass groups (lvl :: lvls) [] g =
    (take (2 `min` length pool) pool ++ (first_pass groups lvls [] g').1,
     (first_pass groups lvls [] g').2).
Proof.
  simpl. destruct (shuffle (group_of groups lvl) g) as [pool g'].
  by rewrite first_pass_acc.
Qed.

Lemma first_pass_submseteq groups lvls g :
  (first_pass groups lvls [] g).1 ⊆+ concat (group_of groups <$> lvls).
Proof.
  revert g. induction lvls as [|lvl lvls IH]; intros g; [done|].
  rewrite first_pass_cons. simpl. apply submseteq_app; [|apply IH].
  etrans; [apply submseteq_take|].
  apply Permutation_submseteq, shuffle_Permutation.
Qed.

Lemma first_pass_length groups lvls g :
  length (first_pass groups lvls [] g).1 =
    sum_list ((λ lvl, 2 `min` length (group_of groups lvl)) <$> lvls).
Proof.
  revert g. induction lvls as [|lvl lvls IH]; intros g; [done|].
  rewrite first_pass_cons. simpl.
  rewrite length_app, length_take, IH, shuffle_length. f_equal. lia.
Qed.

Lemma tier_count_app lvl l k :
  tier_count lvl (l ++ k) = tier_count lvl l + tier_count lvl k.
Proof. unfold tier_count, of_level. by rewrite filter_app, length_app. Qed.

Lemma tier_count_Permutation lvl l k :
  l ≡ₚ k → tier_count lvl l = tier_count lvl k.
Proof. unfold tier_count, of_level. by intros ->. Qed.

Lemma tier_count_same lvl l :
  Forall (λ q, get_difficulty q = lvl) l → tier_count lvl l = length l.
Proof. intros Hl. unfold tier_count, of_level. by rewrite filter_all. Qed.

Lemma tier_count_other lvl lvl' l :
  lvl ≠ lvl' → Forall (λ q, get_difficulty q = lvl') l → tier_count lvl l = 0.
Proof.
  intros Hne Hl. unfold tier_count, of_level. rewrite filter_none; [done|].
  eapply Forall_impl; [done|]. simpl. congruence.
Qed.

(** Each level contributes its own questions only, at most two of them. *)
Lemma first_pass_tier_count groups lvls g t :
  NoDup lvls →
  (∀ lvl, Forall (λ q, get_difficulty q = lvl) (group_of groups lvl)) →
  tier_count t (first_pass groups lvls [] g).1 =
    if decide (t ∈ lvls) then 2 `min` length (group_of groups t) else 0.
Proof.
  intros Hnd Hgroups. revert g.
  induction Hnd as [|lvl lvls Hlvl _ IH]; intros g.
  { by rewrite decide_False by apply not_elem_of_nil. }
  rewrite first_pass_cons. simpl. rewrite tier_count_app, IH.
  assert (Forall (λ q, get_difficulty q = lvl)
            (take (2 `min` length (shuffle (group_of groups lvl) g).1)
               (shuffle (group_of groups lvl) g).1)) as Hpick.
  { apply Forall_take. rewrite shuffle_Permutation. apply Hgroups. }
  destruct (decide (t = lvl)) as [->|Hne].
  - rewrite tier_count_same by done.
    rewrite (decide_False (P := lvl ∈ lvls)) by done.
    rewrite decide_True by left.
    rewrite length_take, shuffle_length. lia.
  - rewrite (tier_count_other t lvl) by done. simpl.
    destruct (decide (t ∈ lvls)) as [Hin|Hin].
    + rewrite decide_True by (by right). done.
    + rewrite decide_False; [done|]. rewrite elem_of_cons. tauto.
Qed.

Lemma all_pools_acc groups lvls remaining g :
  all_pools groups lvls remaining g =
    (remaining ++ (all_pools groups lvls [] g).1, (all_pools groups lvls [] g).2).
Proof.
  revert remaining g. induction lvls as [|lvl lvls IH]; intros remaining g; simpl.
  { by rewrite app_nil_r. }
  destruct (shuffle (group_of groups lvl) g) as [pool g'].
  rewrite (IH (remaining ++ _)), (IH pool). simpl. by rewrite app_assoc.
Qed.

Lemma all_pools_Permutation groups lvls g :
  (all_pools groups lvls [] g).1 ≡ₚ concat (group_of groups <$> lvls).
Proof.
  revert g. induction lvls as [|lvl lvls IH]; intros g; [done|].
  simpl. pose proof (shuffle_Permutation (group_of groups lvl) g) as Hs.
  destruct (shuffle (group_of groups lvl) g) as [pool g']. simpl in Hs.
  rewrite all_pools_acc. simpl. by rewrite IH, Hs.
Qed.

Lemma group_by_level_sound qs lvl :
  Forall (λ q, get_difficulty q = lvl) (group_of (group_by_level qs) lvl).
Proof.
  rewrite group_of_by_level. case_decide; [|done].
  unfold of_level. apply Forall_forall. intros q. by rewrite list_elem_of_filter; intros [? _].
Qed.

Lemma available_submseteq qs : available qs ⊆+ qs.
Proof. apply sublist_submseteq, sublist_filter. Qed.

(** ** What [_build_all_levels_plan] returns *)

Lemma first_pass_le_10 groups g :
  length (first_pass groups levels [] g).1 ≤ 10.
Proof. rewrite first_pass_length. unfold levels. simpl. lia. Qed.

Lemma first_pass_available qs g :
  (first_pass (group_by_level qs) levels [] g).1 ⊆+ available qs.
Proof. rewrite <- concat_groups. apply first_pass_submseteq. Qed.

Lemma distinct_objects_Permutation l k :
  l ≡ₚ k → distinct_objects l → distinct_objects k.
Proof. unfold distinct_objects. by intros ->. Qed.

(** The plan is drawn from the questions of levels 1 to 5 without
    repetition, and it is as long as that supply allows, up to 10. *)
Lemma build_all_levels_spec qs g :
  distinct_objects qs →
  (_build_all_levels_plan qs g).1 ⊆+ available qs ∧
  length (_build_all_levels_plan qs g).1 = 10 `min` length (available qs).
Proof.
  intros Hqs. unfold _build_all_levels_plan.
  pose proof (first_pass_available qs g) as Hsub1.
  pose proof (first_pass_le_10 (group_by_level qs) g) as Hle1.
  destruct (first_pass _ levels [] g) as [plan1 g1]. simpl in Hsub1, Hle1.
  pose proof (submseteq_length _ _ Hsub1) as Hlen1.
  case_decide as Hshort.
  - pose proof (all_pools_Permutation (group_by_level qs) levels g1) as Hrem.
    rewrite concat_groups in Hrem.
    destruct (all_pools _ levels [] g1) as [remaining g2]. simpl in Hrem.
    destruct (submseteq_Permutation _ _ Hsub1) as [rest Hrest].
    assert (distinct_objects (plan1 ++ rest)) as Hnd.
    { eapply distinct_objects_Permutation; [done|].
      eapply submseteq_distinct; [apply available_submseteq|done]. }
    set (unselected := filter _ remaining).
    assert (unselected ≡ₚ rest) as Hun.
    { subst unselected. rewrite Hrem, Hrest. by rewrite filter_unselected. }
    pose proof (shuffle_Permutation unselected g2) as Hsh.
    destruct (shuffle unselected g2) as [remaining' g3]. simpl in Hsh.
    rewrite Hun in Hsh.
    pose proof (shuffle_Permutation (plan1 ++ take (10 - length plan1) remaining') g3)
      as Hfin.
    destruct (shuffle (plan1 ++ _) g3) as [plan g4]. simpl in *. split.
    + etrans; [apply submseteq_take|]. rewrite Hfin, Hrest.
      apply submseteq_skips_l. etrans; [apply submseteq_take|].
      by apply Permutation_submseteq.
    + rewrite length_take, Hfin, length_app, length_take, Hsh, Hrest, length_app. lia.
  - pose proof (shuffle_Permutation plan1 g1) as Hfin.
    destruct (shuffle plan1 g1) as [plan g2]. simpl in *. split.
    + etrans; [apply submseteq_take|]. by rewrite Hfin.
    + rewrite length_take, Hfin. lia.
Qed.

Lemma build_all_levels_distinct qs g :
  distinct_objects qs → distinct_objects (_build_all_levels_plan qs g).1.
Proof.
  intros Hqs. eapply submseteq_distinct; [apply build_all_levels_spec, Hqs|].
  eapply submseteq_distinct; [apply available_submseteq|done].
Qed.

Lemma build_all_levels_in_levels qs g q :
  distinct_objects qs →
  q ∈ (_build_all_levels_plan qs g).1 → q ∈ qs ∧ in_levels (get_difficulty q).
Proof.
  intros Hqs Hq.
  eapply elem_of_submseteq in Hq; [|apply build_all_levels_spec, Hqs].
  unfold available in Hq. apply list_elem_of_filter in Hq. tauto.
Qed.

Lemma load_questions_distinct file : distinct_objects (load_questions file).
Proof.
  unfold distinct_objects. destruct file as [records|]; simpl; [|apply NoDup_nil_2].
  rewrite fmap_imap. unfold compose. simpl.
  rewrite (imap_seq_0 records (λ i, i)), list_fmap_id. apply NoDup_seq.
Qed.

Lemma distinct_objects_inj qs p q :
  distinct_objects qs → p ∈ qs → q ∈ qs → obj_id p = obj_id q → p = q.
Proof.
  unfold distinct_objects. induction qs as [|x qs IH]; intros Hnd Hp Hq Hid.
  { by apply elem_of_nil in Hp. }
  rewrite fmap_cons in Hnd. apply NoDup_cons in Hnd as [Hx Hnd].
  apply elem_of_cons in Hp as [->|Hp]; apply elem_of_cons in Hq as [->|Hq];
    [done| | |by apply IH].
  - destruct Hx. rewrite Hid. by apply list_elem_of_fmap_2.
  - destruct Hx. rewrite <- Hid. by apply list_elem_of_fmap_2.
Qed.

Lemma in_levels_cases lvl :
  in_levels lvl → lvl = 1%Z ∨ lvl = 2%Z ∨ lvl = 3%Z ∨ lvl = 4%Z ∨ lvl = 5%Z.
Proof. unfold in_levels. lia. Qed.

(** ** The stratified plan *)

(** C1: when every level 1..5 has at least 2 questions, the all-levels plan
    has exactly 10 questions, all taken from the catalog (each catalog entry
    at most once), exactly 2 of each level, and no question object occurs
    twice. *)
Theorem build_all_levels_two_per_tier qs g :
  distinct_objects qs →
  (∀ lvl, in_levels lvl → 2 ≤ tier_count lvl qs) →
  length (_build_all_levels_plan qs g).1 = 10 ∧
  (_build_all_levels_plan qs g).1 ⊆+ qs ∧
  Forall (λ q, q ∈ qs ∧ in_levels (get_difficulty q)) (_build_all_levels_plan qs g).1 ∧
  (∀ lvl, in_levels lvl → tier_count lvl (_build_all_levels_plan qs g).1 = 2) ∧
  distinct_objects (_build_all_levels_plan qs g).1 ∧
  NoDup (_build_all_levels_plan qs g).1.
Proof.
  intros Hqs Htiers.
  pose proof (build_all_levels_distinct qs g Hqs) as Hnd.
  destruct (build_all_levels_spec qs g Hqs) as [Hsub _].
  assert (∀ lvl, in_levels lvl →
            2 `min` length (group_of (group_by_level qs) lvl) = 2) as Hmin.
  { intros lvl Hlvl. rewrite group_of_by_level, decide_True by done.
    specialize (Htiers lvl Hlvl). unfold tier_count in Htiers. lia. }
  assert (∃ plan1 g1, first_pass (group_by_level qs) levels [] g = (plan1, g1) ∧
            length plan1 = 10 ∧
            ∀ lvl, in_levels lvl → tier_count lvl plan1 = 2) as (plan1 & g1 & Hfp & Hlen & Hcount).
  { eexists _, _. split; [apply surjective_pairing|]. split.
    - rewrite first_pass_length. unfold levels. simpl.
      rewrite !Hmin by (unfold in_levels; lia). done.
    - intros lvl Hlvl.
      rewrite first_pass_tier_count; [|apply NoDup_levels|apply group_by_level_sound].
      rewrite decide_True by (by apply elem_of_levels). by apply Hmin. }
  assert ((_build_all_levels_plan qs g).1 ≡ₚ plan1) as Hperm.
  { unfold _build_all_levels_plan. rewrite Hfp.
    rewrite decide_False by lia.
    pose proof (shuffle_Permutation plan1 g1) as Hfin.
    destruct (shuffle plan1 g1) as [plan g2]. simpl in *.
    rewrite take_ge by (rewrite Hfin; lia). done. }
  split_and!; [| | | |done|by apply distinct_objects_NoDup].
  - by rewrite Hperm.
  - etrans; [exact Hsub|apply available_submseteq].
  - apply Forall_forall. intros q Hq. by apply (build_all_levels_in_levels qs g).
  - intros lvl Hlvl. rewrite (tier_count_Permutation _ _ _ Hperm). by apply Hcount.
Qed.

(** C2: when every question has a level in 1..5, the all-levels plan has
    no repeated question and its length is min(10, number of questions);
    with fewer than 10 questions it holds all of them. *)
Theorem build_all_levels_length qs g :
  distinct_objects qs →
  Forall (λ q, in_levels (get_difficulty q)) qs →
  distinct_objects (_build_all_levels_plan qs g).1 ∧
  NoDup (_build_all_levels_plan qs g).1 ∧
  (_build_all_levels_plan qs g).1 ⊆+ qs ∧
  length (_build_all_levels_plan qs g).1 = 10 `min` length qs ∧
  (10 ≤ length qs → length (_build_all_levels_plan qs g).1 = 10) ∧
  (length qs < 10 → (_build_all_levels_plan qs g).1 ≡ₚ qs).
Proof.
  intros Hqs Hall.
  pose proof (build_all_levels_distinct qs g Hqs) as Hnd.
  destruct (build_all_levels_spec qs g Hqs) as [Hsub Hlen].
  assert (available qs = qs) as Hav by (by apply filter_all).
  rewrite Hav in Hsub, Hlen.
  split_and!; [done|by apply distinct_objects_NoDup|done|done|lia|].
  intros Hfew. apply submseteq_length_Permutation; [done|lia].
Qed.

(** C9: a single-level plan has at most 10 questions, all of the requested
    level, none repeated; a level without questions gives the empty plan. *)
Theorem build_single_level_plan_spec qs level g :
  distinct_objects qs →
  length (_build_single_level_plan qs level g).1 ≤ 10 ∧
  length (_build_single_level_plan qs level g).1 = 10 `min` tier_count level qs ∧
  Forall (λ q, q ∈ qs ∧ get_difficulty q = level) (_build_single_level_plan qs level g).1 ∧
  distinct_objects (_build_single_level_plan qs level g).1 ∧
  NoDup (_build_single_level_plan qs level g).1 ∧
  (tier_count level qs = 0 → (_build_single_level_plan qs level g).1 = []).
Proof.
  intros Hqs. unfold _build_single_level_plan.
  pose proof (shuffle_Permutation (of_level level qs) g) as Hsh.
  unfold of_level in Hsh.
  destruct (shuffle (filter _ qs) g) as [pool g']. simpl in *.
  assert (take 10 pool ⊆+ qs) as Hsub.
  { etrans; [apply submseteq_take|]. rewrite Hsh.
    apply sublist_submseteq, sublist_filter. }
  assert (length (take 10 pool) = 10 `min` tier_count level qs) as Hlen.
  { rewrite length_take, Hsh. done. }
  split_and!.
  - lia.
  - done.
  - apply Forall_take. rewrite Hsh. apply Forall_forall. intros q.
    rewrite list_elem_of_filter. tauto.
  - by eapply submseteq_distinct.
  - eapply distinct_objects_NoDup, submseteq_distinct; done.
  - intros Hzero. apply length_zero_iff_nil. lia.
Qed.

(** C10: a question whose level (3 when the field is absent) is outside
    1..5 is never in the all-levels plan, by identity or otherwise, and the
    plan's length is min(10, number of questions with a level in 1..5), a
    count that leaves it out. *)
Theorem build_all_levels_skips_other_levels qs g q :
  distinct_objects qs →
  q ∈ qs →
  ¬ in_levels (get_difficulty q) →
  (q ∉ (_build_all_levels_plan qs g).1) ∧
  (obj_id q ∉ (obj_id <$> (_build_all_levels_plan qs g).1)) ∧
  (q ∉ available qs) ∧
  length (_build_all_levels_plan qs g).1 = 10 `min` length (available qs).
Proof.
  intros Hqs Hq Hout.
  destruct (build_all_levels_spec qs g Hqs) as [Hsub Hlen].
  split_and!; [| | |done].
  - intros Hin. by apply build_all_levels_in_levels in Hin as [_ ?].
  - intros Hin. apply list_elem_of_fmap in Hin as (p & Hid & Hp).
    apply build_all_levels_in_levels in Hp as [Hp Hlvl]; [|done].
    by rewrite (distinct_objects_inj qs q p) in Hout.
  - unfold available. rewrite list_elem_of_filter. tauto.
Qed.

Lemma build_all_levels_two_per_tier_witness :
  length (_build_all_levels_plan full_catalog [3; 1; 4; 1; 5; 9; 2; 6]).1 = 10 ∧
  (_build_all_levels_plan full_catalog [3; 1; 4; 1; 5; 9; 2; 6]).1 ⊆+ full_catalog ∧
  Forall (λ q, q ∈ full_catalog ∧ in_levels (get_difficulty q))
    (_build_all_levels_plan full_catalog [3; 1; 4; 1; 5; 9; 2; 6]).1 ∧
  (∀ lvl, in_levels lvl →
     tier_count lvl (_build_all_levels_plan full_catalog [3; 1; 4; 1; 5; 9; 2; 6]).1 = 2) ∧
  distinct_objects (_build_all_levels_plan full_catalog [3; 1; 4; 1; 5; 9; 2; 6]).1 ∧
  NoDup (_build_all_levels_plan full_catalog [3; 1; 4; 1; 5; 9; 2; 6]).1.
Proof.
  apply (build_all_levels_two_per_tier full_catalog [3; 1; 4; 1; 5; 9; 2; 6]).
  - unfold distinct_objects. by apply (bool_decide_unpack _).
  - intros lvl Hlvl.
    destruct (in_levels_cases lvl Hlvl) as [->|[->|[->|[->| ->]]]]; vm_compute; lia.
Defined.

Lemma build_all_levels_length_witness :
  distinct_objects (_build_all_levels_plan easy_catalog [1; 0; 2]).1 ∧
  NoDup (_build_all_levels_plan easy_catalog [1; 0; 2]).1 ∧
  (_build_all_levels_plan easy_catalog [1; 0; 2]).1 ⊆+ easy_catalog ∧
  length (_build_all_levels_plan easy_catalog [1; 0; 2]).1 = 10 `min` length easy_catalog ∧
  (10 ≤ length easy_catalog →
     length (_build_all_levels_plan easy_catalog [1; 0; 2]).1 = 10) ∧
  (length easy_catalog < 10 →
     (_build_all_levels_plan easy_catalog [1; 0; 2]).1 ≡ₚ easy_catalog).
Proof.
  apply (build_all_levels_length easy_catalog [1; 0; 2]).
  - unfold distinct_objects. by apply (bool_decide_unpack _).
  - unfold easy_catalog. simpl. repeat constructor; vm_compute; discriminate.
Defined.

Lemma build_single_level_plan_spec_witness :
  length (_build_single_level_plan sparse_catalog 3 [1; 0; 2]).1 ≤ 10 ∧
  length (_build_single_level_plan sparse_catalog 3 [1; 0; 2]).1
    = 10 `min` tier_count 3 sparse_catalog ∧
  Forall (λ q, q ∈ sparse_catalog ∧ get_difficulty q = 3%Z)
    (_build_single_level_plan sparse_catalog 3 [1; 0; 2]).1 ∧
  distinct_objects (_build_single_level_plan sparse_catalog 3 [1; 0; 2]).1 ∧
  NoDup (_build_single_level_plan sparse_catalog 3 [1; 0; 2]).1 ∧
  (tier_count 3 sparse_catalog = 0 →
     (_build_single_level_plan sparse_catalog 3 [1; 0; 2]).1 = []).
Proof.
  apply (build_single_level_plan_spec sparse_catalog 3 [1; 0; 2]).
  unfold distinct_objects. by apply (bool_decide_unpack _).
Defined.

Lemma build_all_levels_skips_other_levels_witness :
  let q := {| obj_id := 2; fields := sample "c" "Ciri" "Pavetta" (Some 7%Z) |} in
  (q ∉ (_build_all_levels_plan sparse_catalog [1; 0; 2]).1) ∧
  (obj_id q ∉ (obj_id <$> (_build_all_levels_plan sparse_catalog [1; 0; 2]).1)) ∧
  (q ∉ available sparse_catalog) ∧
  length (_build_all_levels_plan sparse_catalog [1; 0; 2]).1
    = 10 `min` length (available sparse_catalog).
Proof.
  apply (build_all_levels_skips_other_levels sparse_catalog [1; 0; 2]).
  - unfold distinct_objects. by apply (bool_decide_unpack _).
  - apply list_elem_of_lookup. by exists 2.
  - vm_compute. intros [_ H]. by apply H.
Defined.

(** The plans behind the witnesses, evaluated. *)
Example sparse_plan :
  obj_id <$> (_build_all_levels_plan sparse_catalog [1; 0; 2]).1 = [0; 1] ∧
  length (available sparse_catalog) = 2 ∧
  obj_id <$> (_build_single_level_plan sparse_catalog 3 [1; 0; 2]).1 = [1] ∧
  (_build_single_level_plan sparse_catalog 2 [1; 0; 2]).1 = [] ∧
  obj_id <$> (_build_all_levels_plan full_catalog [3; 1; 4; 1; 5; 9; 2; 6]).1
    = [1; 8; 3; 5; 4; 7; 0; 6; 2; 9].
Proof. vm_compute. done. Qed.

(** ** Session callbacks *)

Lemma init_key_lookup {V} (k : Z) (v : V) (d : gmap Z V) :
  init_key k v d !! k = Some (default v (d !! k)).
Proof.
  unfold init_key. destruct (d !! k) eqn:Hk; simpl; [done|].
  by rewrite lookup_insert_eq.
Qed.

Lemma init_key_lookup_ne {V} (k k' : Z) (v : V) (d : gmap Z V) :
  k ≠ k' → init_key k v d !! k' = d !! k'.
Proof.
  intros Hne. unfold init_key. destruct (d !! k); [done|].
  by rewrite lookup_insert_ne.
Qed.

Lemma needs_new_plan_false plan idx :
  needs_new_plan plan idx = false ↔ ∃ p, plan = Some p ∧ idx < length p.
Proof.
  unfold needs_new_plan. split.
  - destruct plan as [[|q p]|]; [done| |done].
    intros Hb. apply bool_decide_eq_false in Hb. exists (q :: p). split; [done|lia].
  - intros (p & -> & Hlt). destruct p as [|q p]; simpl in *; [lia|].
    apply bool_decide_eq_false. lia.
Qed.

(** What [advance] does to plan and index, by whether questions remain. *)
Lemma advance_spec u s :
  let idx := index_of s u + 1 in
  let plan := plan_of s u in
  advance u s =
    if decide (length plan ≤ idx) then
      (upd_question_index <[u := 0]>
         (upd_question_list <[u := []]>
            (upd_question_index <[u := idx]> s)),
       [Finished (score_of s u) (match plan with [] => 10 | _ => length plan end)])
    else (upd_question_index <[u := idx]> s, []).
Proof.
  unfold advance, index_of, plan_of, score_of. simpl.
  rewrite lookup_insert_eq. simpl. done.
Qed.

(** With no current question stored for the user, [handle_answer] answers
    "please restart" and returns the state it was given. *)
Lemma handle_answer_unasked u a s :
  current_question s !! u = None →
  handle_answer u a s = Ok (s, [PleaseRestart], END).
Proof. intros Hq. unfold handle_answer. by rewrite Hq. Qed.

(** The result of [handle_answer] when a question is stored and the user
    has a score entry. *)
Lemma handle_answer_spec u a s (q : Question) n :
  current_question s !! u = Some q →
  user_scores s !! u = Some n →
  let n' := if decide (a = correct_answer q) then n + 1 else n in
  let reply := if decide (a = correct_answer q)
               then Correct (default "" (explanation q)) n'
               else Wrong (correct_answer q) (default "" (explanation q)) n' in
  let s1 := if decide (a = correct_answer q)
            then upd_scores <[u := n']> s else s in
  handle_answer u a s = Ok ((advance u s1).1, reply :: (advance u s1).2, END).
Proof.
  intros Hq Hn. unfold handle_answer. rewrite Hq. simpl.
  case_decide as Ha.
  - unfold score_of. rewrite Hn. simpl. rewrite lookup_insert_eq.
    by destruct (advance _ _).
  - rewrite Hn. by destruct (advance _ _).
Qed.

(** The one way [handle_answer] can raise: a wrong answer from a user
    without a score entry, when the reply text reads [user_scores[user_id]]. *)
Lemma handle_answer_wrong_without_score u a s (q : Question) :
  current_question s !! u = Some q →
  user_scores s !! u = None →
  a ≠ correct_answer q →
  handle_answer u a s = Raise KeyError.
Proof.
  intros Hq Hn Ha. unfold handle_answer. rewrite Hq. simpl.
  rewrite decide_False by done. by rewrite Hn.
Qed.

Lemma advance_scores u s : user_scores (advance u s).1 = user_scores s.
Proof. rewrite advance_spec. simpl. by case_decide. Qed.

Lemma advance_current_question u s :
  current_question (advance u s).1 = current_question s.
Proof. rewrite advance_spec. simpl. by case_decide. Qed.

(** C6: the answer counts as right exactly when the submitted text equals
    the question's [correct_answer] as a string; then, and only then, the
    score goes up, by 1. *)
Theorem handle_answer_exact_match u a s (q : Question) n :
  current_question s !! u = Some q →
  user_scores s !! u = Some n →
  ∃ s' reply rest,
    handle_answer u a s = Ok (s', reply :: rest, END) ∧
    (a = correct_answer q →
       user_scores s' !! u = Some (n + 1) ∧
       reply = Correct (default "" (explanation q)) (n + 1)) ∧
    (a ≠ correct_answer q →
       user_scores s' !! u = Some n ∧
       reply = Wrong (correct_answer q) (default "" (explanation q)) n) ∧
    (user_scores s' !! u = Some (n + 1) ↔ a = correct_answer q).
Proof.
  intros Hq Hn. eexists _, _, _. split; [by apply handle_answer_spec|].
  rewrite advance_scores.
  case_decide as Ha; simpl.
  - rewrite lookup_insert_eq. split_and!; done.
  - rewrite Hn. split_and!; [done|done|]. split; [|done].
    intros [= ?]. lia.
Qed.

Lemma handle_answer_exact_match_witness :
  ∃ s' reply rest,
    handle_answer 7 "Geralt " last_question_state = Ok (s', reply :: rest, END) ∧
    ("Geralt " = "Geralt" →
       user_scores s' !! 7%Z = Some (2 + 1) ∧ reply = Correct "" (2 + 1)) ∧
    ("Geralt " ≠ "Geralt" →
       user_scores s' !! 7%Z = Some 2 ∧ reply = Wrong "Geralt" "" 2) ∧
    (user_scores s' !! 7%Z = Some (2 + 1) ↔ "Geralt " = "Geralt").
Proof.
  apply (handle_answer_exact_match 7 "Geralt " last_question_state
           {| obj_id := 0; fields := sample "a" "Geralt" "Vesemir" (Some 1%Z) |} 2);
    reflexivity.
Defined.

(** The comparison neither trims nor folds case: on the question whose
    [correct_answer] is ["Geralt"], only that exact text scores. *)
Example handle_answer_no_normalisation :
  (∃ s', handle_answer 7 "Geralt" last_question_state
           = Ok (s', [Correct "" 3; Finished 3 3], END)) ∧
  (∃ s', handle_answer 7 "geralt" last_question_state
           = Ok (s', [Wrong "Geralt" "" 2; Finished 2 3], END)) ∧
  (∃ s', handle_answer 7 " Geralt" last_question_state
           = Ok (s', [Wrong "Geralt" "" 2; Finished 2 3], END)) ∧
  (∃ s', handle_answer 7 "Geralt " last_question_state
           = Ok (s', [Wrong "Geralt" "" 2; Finished 2 3], END)).
Proof. split_and!; eexists; vm_compute; reflexivity. Qed.

(** C5: when the answered question was the last of the plan, the summary
    [Finished final total] is sent with [total] the length of the plan that
    was served and [final] the score after this answer. *)
Theorem handle_answer_summary_total u a s (q : Question) n plan :
  current_question s !! u = Some q →
  user_scores s !! u = Some n →
  user_question_list s !! u = Some plan →
  plan ≠ [] →
  index_of s u + 1 = length plan →
  ∃ s' reply,
    handle_answer u a s
      = Ok (s', [reply; Finished (score_of s' u) (length plan)], END) ∧
    score_of s' u = (if decide (a = correct_answer q) then n + 1 else n) ∧
    user_question_list s' !! u = Some [] ∧
    user_question_index s' !! u = Some 0.
Proof.
  intros Hq Hn Hplan Hne Hlast.
  rewrite (handle_answer_spec u a s q n Hq Hn).
  set (s1 := if decide (a = correct_answer q) then _ else s).
  assert (plan_of s1 u = plan ∧ index_of s1 u = index_of s u ∧
          score_of s1 u = if decide (a = correct_answer q) then n + 1 else n)
    as (Hp1 & Hi1 & Hs1).
  { unfold plan_of, index_of, score_of. subst s1. case_decide; simpl.
    - by rewrite Hplan, lookup_insert_eq.
    - by rewrite Hplan, Hn. }
  rewrite advance_spec. simpl. rewrite Hp1, Hi1, Hs1.
  rewrite decide_True by lia.
  eexists _, _. split_and!.
  - repeat f_equal. unfold score_of. simpl.
    fold (score_of s1 u). rewrite Hs1. by destruct plan.
  - unfold score_of. simpl. fold (score_of s1 u). by rewrite Hs1.
  - simpl. by rewrite lookup_insert_eq.
  - simpl. by rewrite lookup_insert_eq.
Qed.

(** The fallback [10] of [total = len(plan) if plan else 10] shows only
    when an answer arrives while no plan is stored: here the last button
    is pressed a second time after the quiz has finished. *)
Example handle_answer_stale_summary :
  plan_of finished_state 7 = [] ∧
  ∃ s', handle_answer 7 "Geralt" finished_state
          = Ok (s', [Correct "" 4; Finished 4 10], END).
Proof. split; [reflexivity|]. eexists. vm_compute. reflexivity. Qed.

Lemma handle_answer_summary_total_witness :
  ∃ s' reply,
    handle_answer 7 "Geralt" last_question_state
      = Ok (s', [reply; Finished (score_of s' 7) (length (plan_of last_question_state 7))],
            END) ∧
    score_of s' 7 = (if decide ("Geralt" = "Geralt") then 2 + 1 else 2) ∧
    user_question_list s' !! 7%Z = Some [] ∧
    user_question_index s' !! 7%Z = Some 0.
Proof.
  apply (handle_answer_summary_total 7 "Geralt" last_question_state
           {| obj_id := 0; fields := sample "a" "Geralt" "Vesemir" (Some 1%Z) |} 2
           (plan_of last_question_state 7)).
  - reflexivity.
  - reflexivity.
  - reflexivity.
  - vm_compute. discriminate.
  - reflexivity.
Defined.

(** C8, as stated, fails: after the first of three questions is answered
    the index is 1, but the stored current question is still there. *)
Lemma handle_answer_keeps_question_counterexample :
  ∃ s' out q,
    current_question asked_state !! 7%Z = Some q ∧
    handle_answer 7 "Ciri" asked_state = Ok (s', out, END) ∧
    index_of s' 7 = index_of asked_state 7 + 1 ∧
    current_question s' !! 7%Z = Some q ∧
    ¬ (index_of s' 7 = index_of asked_state 7 + 1 ∧ current_question s' !! 7%Z = None).
Proof.
  eexists _, _, _. split_and!; [reflexivity|vm_compute; reflexivity|reflexivity|reflexivity|].
  intros [_ H]. vm_compute in H. discriminate.
Qed.

(** C8, amended: a [handle_answer] that finds a current question ends the
    conversation and raises the index by exactly 1; when that uses up the
    plan, the plan is replaced by the empty list and the index set to 0.
    The stored current question is left as it was. *)
Theorem handle_answer_advances u a s (q : Question) n :
  current_question s !! u = Some q →
  user_scores s !! u = Some n →
  ∃ s' out,
    handle_answer u a s = Ok (s', out, END) ∧
    current_question s' = current_question s ∧
    (index_of s u + 1 < length (plan_of s u) →
       user_question_index s' !! u = Some (index_of s u + 1) ∧
       user_question_list s' = user_question_list s) ∧
    (length (plan_of s u) ≤ index_of s u + 1 →
       user_question_index s' !! u = Some 0 ∧
       user_question_list s' !! u = Some []).
Proof.
  intros Hq Hn. eexists _, _. split; [by apply handle_answer_spec|].
  set (s1 := if decide (a = correct_answer q) then _ else s).
  assert (plan_of s1 u = plan_of s u ∧ index_of s1 u = index_of s u ∧
          current_question s1 = current_question s ∧
          user_question_list s1 = user_question_list s) as (Hp1 & Hi1 & Hc1 & Hl1).
  { subst s1. by case_decide. }
  rewrite advance_current_question, advance_spec. simpl. rewrite Hp1, Hi1.
  split_and!; [done| |]; intros Hlen.
  - rewrite decide_False by lia. simpl. by rewrite lookup_insert_eq.
  - rewrite decide_True by lia. simpl. by rewrite !lookup_insert_eq.
Qed.

Lemma handle_answer_advances_witness :
  ∃ s' out,
    handle_answer 7 "Ciri" asked_state = Ok (s', out, END) ∧
    current_question s' = current_question asked_state ∧
    (index_of asked_state 7 + 1 < length (plan_of asked_state 7) →
       user_question_index s' !! 7%Z = Some (index_of asked_state 7 + 1) ∧
       user_question_list s' = user_question_list asked_state) ∧
    (length (plan_of asked_state 7) ≤ index_of asked_state 7 + 1 →
       user_question_index s' !! 7%Z = Some 0 ∧
       user_question_list s' !! 7%Z = Some []).
Proof.
  apply (handle_answer_advances 7 "Ciri" asked_state
           {| obj_id := 2; fields := sample "c" "Ciri" "Pavetta" (Some 1%Z) |} 0);
    reflexivity.
Defined.

(** ** [quiz] *)

Lemma present_spec u plan idx s :
  idx < length plan →
  ∃ q, plan !! idx = Some q ∧
    present u plan idx s =
      Ok (upd_current_question <[u := q]> s,
          [AskQuestion (idx + 1) (length plan) q], QUESTION).
Proof.
  intros Hlt. destruct (lookup_lt_is_Some_2 plan idx Hlt) as [q Hq].
  exists q. split; [done|]. unfold present. by rewrite Hq.
Qed.

(** C4, as stated, fails: a second [quiz] right after the first returns the
    very same state and question. No plan is built (no draw is consumed),
    although a build at that point would have given another plan. *)
Lemma quiz_twice_counterexample :
  ∃ s1 out1 s2 out2,
    quiz easy_catalog 7 (initial_state draws) = Ok (s1, out1, QUESTION) ∧
    quiz easy_catalog 7 s1 = Ok (s2, out2, QUESTION) ∧
    s2 = s1 ∧ out2 = out1 ∧
    obj_id <$> plan_of s2 7 = [2; 1; 0] ∧
    random_state s2 = random_state s1 ∧
    obj_id <$> (build_plan easy_catalog AllLevels (random_state s1)).1 = [0; 1; 2] ∧
    (build_plan easy_catalog AllLevels (random_state s1)).1 ≠ plan_of s2 7.
Proof.
  eexists _, _, _, _.
  split; [vm_compute; reflexivity|].
  split; [vm_compute; reflexivity|].
  split_and!; try (vm_compute; reflexivity).
  intros H. apply (f_equal (fmap obj_id)) in H. vm_compute in H. discriminate.
Qed.

(** A [quiz] that finds a plan with questions left: the state it returns
    and the question it sends. *)
Lemma quiz_in_progress qs u s plan :
  qs ≠ [] →
  user_question_list s !! u = Some plan →
  index_of s u < length plan →
  ∃ q,
    plan !! index_of s u = Some q ∧
    quiz qs u s
      = Ok (upd_current_question <[u := q]>
              (upd_difficulty (init_key u AllLevels) (upd_scores (init_key u 0) s)),
            [AskQuestion (index_of s u + 1) (length plan) q], QUESTION).
Proof.
  intros Hqs Hplan Hidx. unfold quiz.
  destruct qs as [|q0 qs]; [done|]. simpl.
  change (index_of (upd_difficulty _ (upd_scores _ s)) u) with (index_of s u).
  rewrite Hplan.
  rewrite (proj2 (needs_new_plan_false (Some plan) (index_of s u)))
    by (by exists plan).
  simpl. destruct (present_spec u plan (index_of s u)
    (upd_difficulty (init_key u AllLevels) (upd_scores (init_key u 0) s)) Hidx)
    as (q & Hq & ->).
  by exists q.
Qed.

Lemma init_key_score u s :
  score_of (upd_scores (init_key u 0) s) u = score_of s u.
Proof. unfold score_of. simpl. by rewrite init_key_lookup. Qed.

(** C4, amended: a [quiz] that finds a plan with questions left continues
    it. Plan, index, score and generator stay as they are, and the question
    at the current index is presented again. *)
Theorem quiz_continues_plan qs u s plan :
  qs ≠ [] →
  user_question_list s !! u = Some plan →
  index_of s u < length plan →
  ∃ s' q,
    plan !! index_of s u = Some q ∧
    quiz qs u s
      = Ok (s', [AskQuestion (index_of s u + 1) (length plan) q], QUESTION) ∧
    user_question_list s' = user_question_list s ∧
    user_question_index s' = user_question_index s ∧
    random_state s' = random_state s ∧
    score_of s' u = score_of s u ∧
    current_question s' !! u = Some q.
Proof.
  intros Hqs Hplan Hidx.
  destruct (quiz_in_progress qs u s plan Hqs Hplan Hidx) as (q & Hq & ->).
  eexists _, q. split_and!; try done.
  - apply init_key_score.
  - simpl. by rewrite lookup_insert_eq.
Qed.

Lemma quiz_continues_plan_witness :
  ∃ s' q,
    plan_of last_question_state 7 !! index_of last_question_state 7 = Some q ∧
    quiz easy_catalog 7 last_question_state
      = Ok (s', [AskQuestion (index_of last_question_state 7 + 1)
                   (length (plan_of last_question_state 7)) q], QUESTION) ∧
    user_question_list s' = user_question_list last_question_state ∧
    user_question_index s' = user_question_index last_question_state ∧
    random_state s' = random_state last_question_state ∧
    score_of s' 7 = score_of last_question_state 7 ∧
    current_question s' !! 7%Z = Some q.
Proof.
  apply (quiz_continues_plan easy_catalog 7 last_question_state
           (plan_of last_question_state 7)).
  - vm_compute. discriminate.
  - reflexivity.
  - vm_compute. lia.
Defined.

(** C3, as stated, fails: user 7 ended a quiz with 3 points and chose
    level 3, which has no questions. The next [quiz] reports that, leaves
    no plan, and has already set the score to 0. *)
Lemma quiz_empty_plan_resets_score_counterexample :
  ∃ s',
    score_of finished_state 7 = 3 ∧
    (build_plan easy_catalog (Level 3) (random_state finished_state)).1 = [] ∧
    quiz easy_catalog 7 finished_state = Ok (s', [NoQuestionsForLevel 3], END) ∧
    plan_of s' 7 = [] ∧
    score_of s' 7 = 0 ∧
    score_of s' 7 ≠ score_of finished_state 7.
Proof.
  eexists. split_and!; try (vm_compute; reflexivity).
  vm_compute. discriminate.
Qed.

Lemma upd_scores_insert_score u n s : score_of (upd_scores <[u := n]> s) u = n.
Proof. unfold score_of. simpl. by rewrite lookup_insert_eq. Qed.

Lemma advance_score u s : score_of (advance u s).1 u = score_of s u.
Proof. unfold score_of. by rewrite advance_scores. Qed.

(** [handle_answer] never lowers a score: it adds 1 or nothing. *)
Lemma handle_answer_score_step u a s :
  match handle_answer u a s with
  | Ok (s', _, _) => score_of s' u = score_of s u ∨ score_of s' u = score_of s u + 1
  | Raise _ => True
  end.
Proof.
  destruct (current_question s !! u) as [q|] eqn:Hq.
  - destruct (user_scores s !! u) as [n|] eqn:Hn.
    + rewrite (handle_answer_spec u a s q n Hq Hn). rewrite advance_score.
      case_decide.
      * right. rewrite upd_scores_insert_score. unfold score_of. by rewrite Hn.
      * by left.
    + unfold handle_answer. rewrite Hq. simpl. case_decide.
      * rewrite lookup_insert_eq.
        pose proof (advance_score u
          (upd_scores <[u := score_of s u + 1]> s)) as Hadv.
        destruct (advance _ _) as [s' out]. simpl in Hadv. right.
        by rewrite Hadv, upd_scores_insert_score.
      * by rewrite Hn.
  - unfold handle_answer. rewrite Hq. by left.
Qed.

(** C3, amended: [quiz] always returns, and the score it leaves is
    - the old score when the catalog is empty;
    - the old score when a plan with questions left is continued;
    - 0 whenever there is no such plan, set before the plan is built: also
      when the build gives an empty plan, in which case no plan is stored
      and the conversation ends; otherwise the new plan is stored with
      index 0.
    The other callbacks never reset it: [handle_answer] adds 1 or nothing
    and [handle_difficulty] leaves the scores alone. *)
Theorem quiz_score_reset qs u s :
  let d := default AllLevels (user_difficulty s !! u) in
  let plan := (build_plan qs d (random_state s)).1 in
  (∃ s' out c,
    quiz qs u s = Ok (s', out, c) ∧
    (qs = [] → score_of s' u = score_of s u ∧ c = END) ∧
    (qs ≠ [] →
     needs_new_plan (user_question_list s !! u) (index_of s u) = false →
       score_of s' u = score_of s u ∧ c = QUESTION ∧
       user_question_list s' = user_question_list s ∧
       user_question_index s' = user_question_index s) ∧
    (qs ≠ [] →
     needs_new_plan (user_question_list s !! u) (index_of s u) = true →
       score_of s' u = 0 ∧
       (plan = [] →
          c = END ∧
          user_question_list s' = user_question_list s ∧
          user_question_index s' = user_question_index s) ∧
       (plan ≠ [] →
          c = QUESTION ∧
          user_question_list s' !! u = Some plan ∧
          user_question_index s' !! u = Some 0))) ∧
  (∀ a, match handle_answer u a s with
        | Ok (s', _, _) =>
            score_of s' u = score_of s u ∨ score_of s' u = score_of s u + 1
        | Raise _ => True
        end) ∧
  (∀ data, user_scores (handle_difficulty u data s).1.1 = user_scores s).
Proof.
  intros d plan. split; [|split; [intros a; apply handle_answer_score_step|done]].
  destruct qs as [|q0 qs].
  { eexists _, _, _. split; [done|]. split_and!; [|done|done].
    intros _. split; [|done]. apply init_key_score. }
  set (cat := q0 :: qs) in *.
  destruct (needs_new_plan (user_question_list s !! u) (index_of s u)) eqn:Hnew.
  - unfold quiz. fold cat. simpl.
    change (index_of (upd_difficulty _ (upd_scores _ s)) u) with (index_of s u).
    rewrite Hnew, init_key_lookup. fold d.
    subst plan. destruct (build_plan cat d (random_state s)) as [[|q p] g] eqn:Hb.
    + eexists _, _, _. split; [done|]. split_and!; try done.
      intros _ _. split_and!; try done. apply upd_scores_insert_score.
    + destruct (present_spec u (q :: p) 0
        (upd_question_index <[u:=0]>
           (upd_question_list <[u:=q :: p]>
              (upd_random_state g
                 (upd_scores <[u:=0]>
                    (upd_difficulty (init_key u AllLevels)
                       (upd_scores (init_key u 0) s))))))) as (q' & _ & ->).
      { simpl. lia. }
      eexists _, _, _. split; [done|]. split_and!; try done.
      intros _ _. split_and!; try done.
      * apply upd_scores_insert_score.
      * intros _. simpl. by rewrite !lookup_insert_eq.
  - apply needs_new_plan_false in Hnew as (p & Hp & Hlt).
    destruct (quiz_in_progress cat u s p) as (q & _ & Hquiz); [done..|].
    eexists _, _, _. split; [exact Hquiz|]. split_and!; try done.
    intros _ _. split_and!; try done. apply init_key_score.
Qed.

(** ** Reachable sessions *)

Lemma init_key_is_Some {V} (k k' : Z) (v : V) (d : gmap Z V) :
  is_Some (d !! k') → is_Some (init_key k v d !! k').
Proof.
  intros Hk'. unfold init_key. destruct (d !! k) eqn:Hk; [done|].
  destruct (decide (k = k')) as [->|Hne].
  - by rewrite lookup_insert_eq.
  - by rewrite lookup_insert_ne.
Qed.

Lemma insert_is_Some {V} (k k' : Z) (v : V) (d : gmap Z V) :
  is_Some (d !! k') → is_Some (<[k := v]> d !! k').
Proof.
  intros Hk'. destruct (decide (k = k')) as [->|Hne].
  - by rewrite lookup_insert_eq.
  - by rewrite lookup_insert_ne.
Qed.

Lemma initial_state_inv g : session_inv (initial_state g).
Proof. intros u [q Hq]. simpl in Hq. by rewrite lookup_empty in Hq. Qed.

Lemma present_inv u plan idx s s' out c :
  session_inv s → is_Some (user_scores s !! u) →
  present u plan idx s = Ok (s', out, c) → session_inv s'.
Proof.
  intros Hinv Hu. unfold present. destruct (plan !! idx) as [q|]; [|done].
  intros [= <- _ _] u' Hq. simpl in *.
  destruct (decide (u = u')) as [<-|Hne]; [done|].
  rewrite lookup_insert_ne in Hq by done. by apply Hinv.
Qed.

Lemma quiz_inv qs u s s' out c :
  session_inv s → quiz qs u s = Ok (s', out, c) → session_inv s'.
Proof.
  intros Hinv. unfold quiz.
  assert (session_inv (upd_difficulty (init_key u AllLevels)
                         (upd_scores (init_key u 0) s))) as Hinv0.
  { intros u' Hq. simpl in *. by apply init_key_is_Some, Hinv. }
  destruct qs as [|q0 qs]; [by intros [= <- _ _]|].
  simpl. destruct (needs_new_plan _ _).
  - rewrite init_key_lookup.
    destruct (build_plan _ _ _) as [[|q p] g].
    + intros [= <- _ _] u' Hq. simpl in *.
      by apply insert_is_Some, init_key_is_Some, Hinv.
    + apply present_inv.
      * intros u' Hq. simpl in *.
        by apply insert_is_Some, init_key_is_Some, Hinv.
      * simpl. by rewrite lookup_insert_eq.
  - apply present_inv; [done|]. simpl. rewrite init_key_lookup. done.
Qed.

Lemma quiz_returns qs u s : ∃ s' out c, quiz qs u s = Ok (s', out, c).
Proof.
  unfold quiz. destruct qs as [|q0 qs]; [by eexists _, _, _|].
  simpl. change (index_of (upd_difficulty _ (upd_scores _ s)) u) with (index_of s u).
  destruct (needs_new_plan _ _) eqn:Hnew.
  - rewrite init_key_lookup.
    destruct (build_plan _ _ _) as [[|q p] g]; [by eexists _, _, _|].
    by eexists _, _, _.
  - apply needs_new_plan_false in Hnew as (p & -> & Hlt). simpl.
    destruct (present_spec u p (index_of s u)
      (upd_difficulty (init_key u AllLevels) (upd_scores (init_key u 0) s)) Hlt)
      as (q & _ & ->).
    by eexists _, _, _.
Qed.

Lemma advance_inv u s : session_inv s → session_inv (advance u s).1.
Proof.
  intros Hinv u' Hq. rewrite advance_current_question in Hq.
  rewrite advance_scores. by apply Hinv.
Qed.

Lemma handle_answer_returns u a s :
  session_inv s →
  ∃ s' out, handle_answer u a s = Ok (s', out, END) ∧ session_inv s'.
Proof.
  intros Hinv. destruct (current_question s !! u) as [q|] eqn:Hq.
  - destruct (Hinv u) as [n Hn]; [by rewrite Hq|].
    rewrite (handle_answer_spec u a s q n Hq Hn).
    eexists _, _. split; [done|]. apply advance_inv. case_decide; [|done].
    intros u' Hq'. simpl in *. by apply insert_is_Some, Hinv.
  - unfold handle_answer. rewrite Hq. by eexists _, _.
Qed.

(** From the start state no callback ever raises, whatever the catalog,
    the draws and the events: the score and index lookups of
    [handle_answer] and [quiz] always succeed. *)
Lemma run_returns qs es s :
  session_inv s → ∃ s' out, run qs es s = Ok (s', out) ∧ session_inv s'.
Proof.
  revert s. induction es as [|e es IH]; intros s Hinv; simpl.
  { by eexists _, _. }
  assert (∃ s1 out1 c, step qs e s = Ok (s1, out1, c) ∧ session_inv s1)
    as (s1 & out1 & c & -> & Hinv1).
  { destruct e as [u|u a|u d]; simpl.
    - destruct (quiz_returns qs u s) as (s1 & out1 & c & Hq).
      eexists _, _, _. split; [done|]. by eapply quiz_inv.
    - destruct (handle_answer_returns u a s Hinv) as (s1 & out1 & Ha & ?).
      by eexists _, _, _.
    - eexists _, _, _. split; [done|]. done. }
  destruct (IH s1 Hinv1) as (s' & out & -> & Hinv').
  by eexists _, _.
Qed.

(** * Further properties *)

(** ** More on the builders *)

Lemma build_all_levels_untruncated qs g :
  ∃ plan1 g1 backfill,
    first_pass (group_by_level qs) levels [] g = (plan1, g1) ∧
    (_build_all_levels_plan qs g).1 ≡ₚ plan1 ++ backfill.
Proof.
  unfold _build_all_levels_plan.
  pose proof (first_pass_le_10 (group_by_level qs) g) as Hle.
  destruct (first_pass _ levels [] g) as [plan1 g1]. simpl in Hle.
  case_decide as Hshort.
  - destruct (all_pools _ levels [] g1) as [remaining g2].
    destruct (shuffle (filter _ remaining) g2) as [remaining' g3].
    pose proof (shuffle_Permutation (plan1 ++ take (10 - length plan1) remaining') g3)
      as Hfin.
    destruct (shuffle (plan1 ++ _) g3) as [plan g4]. simpl in *.
    exists plan1, g1, (take (10 - length plan1) remaining'). split; [done|].
    rewrite take_ge; [exact Hfin|].
    rewrite Hfin, length_app, length_take. lia.
  - pose proof (shuffle_Permutation plan1 g1) as Hfin.
    destruct (shuffle plan1 g1) as [plan g2]. simpl in *.
    exists plan1, g1, []. split; [done|].
    rewrite take_ge by (rewrite Hfin; lia).
    rewrite Hfin. by rewrite app_nil_r.
Qed.

(** X1: whatever the backfill adds, every level 1..5 keeps its share of the
    first pass: the plan holds at least min(2, size of the level) of its
    questions. *)
Theorem build_all_levels_keeps_quota qs g lvl :
  in_levels lvl →
  2 `min` tier_count lvl qs ≤ tier_count lvl (_build_all_levels_plan qs g).1.
Proof.
  intros Hlvl.
  destruct (build_all_levels_untruncated qs g) as (plan1 & g1 & backfill & Hfp & Hperm).
  rewrite (tier_count_Permutation _ _ _ Hperm), tier_count_app.
  pose proof (first_pass_tier_count (group_by_level qs) levels g lvl
                NoDup_levels (group_by_level_sound qs)) as Hcount.
  rewrite Hfp in Hcount. simpl in Hcount. rewrite Hcount.
  rewrite decide_True by (by apply elem_of_levels).
  rewrite group_of_by_level, decide_True by done.
  unfold tier_count. lia.
Qed.

Lemma build_all_levels_keeps_quota_witness :
  2 `min` tier_count 3 sparse_catalog
    ≤ tier_count 3 (_build_all_levels_plan sparse_catalog [1; 0; 2]).1.
Proof.
  apply (build_all_levels_keeps_quota sparse_catalog [1; 0; 2] 3).
  unfold in_levels. lia.
Defined.

(** X2: the all-levels plan is empty exactly when no question has a level
    in 1..5; a catalog that is not empty can still give an empty plan. *)
Theorem build_all_levels_empty_iff qs g :
  distinct_objects qs →
  (_build_all_levels_plan qs g).1 = [] ↔ available qs = [].
Proof.
  intros Hqs. destruct (build_all_levels_spec qs g Hqs) as [_ Hlen].
  rewrite <- !length_zero_iff_nil. lia.
Qed.

Lemma build_all_levels_empty_iff_witness :
  (_build_all_levels_plan (drop 2 sparse_catalog) [1; 0; 2]).1 = []
  ↔ available (drop 2 sparse_catalog) = [].
Proof.
  apply (build_all_levels_empty_iff (drop 2 sparse_catalog) [1; 0; 2]).
  unfold distinct_objects. by apply (bool_decide_unpack _).
Defined.

(** X3: a level with at most 10 questions is used in full: the single-level
    plan is a rearrangement of all questions of that level. *)
Theorem build_single_level_uses_all qs level g :
  tier_count level qs ≤ 10 →
  (_build_single_level_plan qs level g).1 ≡ₚ of_level level qs.
Proof.
  intros Hfew. unfold _build_single_level_plan.
  pose proof (shuffle_Permutation (of_level level qs) g) as Hsh.
  unfold of_level in *. unfold tier_count, of_level in Hfew.
  destruct (shuffle (filter _ qs) g) as [pool g']. simpl in *.
  rewrite take_ge by (rewrite Hsh; lia). done.
Qed.

Lemma build_single_level_uses_all_witness :
  (_build_single_level_plan easy_catalog 1 [1; 0; 2]).1 ≡ₚ of_level 1 easy_catalog.
Proof.
  apply (build_single_level_uses_all easy_catalog 1 [1; 0; 2]).
  vm_compute. lia.
Defined.

(** X4: for whatever [questions.json] holds (or when it is missing), the
    all-levels plan built on the loaded catalog has no repeated question,
    only questions of levels 1..5, and min(10, number of those) entries. *)
Theorem build_all_levels_on_loaded file g :
  let qs := load_questions file in
  NoDup (obj_id <$> (_build_all_levels_plan qs g).1) ∧
  Forall (λ q, q ∈ qs ∧ in_levels (get_difficulty q)) (_build_all_levels_plan qs g).1 ∧
  length (_build_all_levels_plan qs g).1 = 10 `min` length (available qs).
Proof.
  intros qs. pose proof (load_questions_distinct file) as Hqs. fold qs in Hqs.
  split_and!.
  - by apply build_all_levels_distinct.
  - apply Forall_forall. intros q Hq. by apply (build_all_levels_in_levels qs g).
  - by apply build_all_levels_spec.
Qed.

(** ** More on the callbacks *)

(** The state [quiz] works on after its two [if ... not in ...] lines. *)
Lemma quiz_new_plan qs u s plan g :
  qs ≠ [] →
  needs_new_plan (user_question_list s !! u) (index_of s u) = true →
  build_plan qs (default AllLevels (user_difficulty s !! u)) (random_state s)
    = (plan, g) →
  let s0 := upd_random_state g
              (upd_scores <[u := 0]>
                 (upd_difficulty (init_key u AllLevels)
                    (upd_scores (init_key u 0) s))) in
  quiz qs u s =
    match plan with
    | [] => Ok (s0, [match default AllLevels (user_difficulty s !! u) with
                     | AllLevels => NoQuestionsAll
                     | Level n => NoQuestionsForLevel n
                     end], END)
    | q :: _ =>
        Ok (upd_current_question <[u := q]>
              (upd_question_index <[u := 0]>
                 (upd_question_list <[u := plan]> s0)),
            [AskQuestion 1 (length plan) q], QUESTION)
    end.
Proof.
  intros Hqs Hnew Hbuild. unfold quiz.
  destruct qs as [|q0 qs]; [done|]. simpl.
  change (index_of (upd_difficulty _ (upd_scores _ s)) u) with (index_of s u).
  rewrite Hnew, init_key_lookup, Hbuild. by destruct plan.
Qed.

Ltac frame_lookups :=
  unfold user_view; simpl;
  rewrite ?lookup_insert_ne, ?init_key_lookup_ne by done; done.

Lemma present_frame u plan idx s s' out c u' :
  u ≠ u' → present u plan idx s = Ok (s', out, c) →
  user_view s' u' = user_view s u'.
Proof.
  intros Hne. unfold present. destruct (plan !! idx); [|done].
  intros [= <- _ _]. frame_lookups.
Qed.

Lemma quiz_frame qs u s s' out c u' :
  u ≠ u' → quiz qs u s = Ok (s', out, c) → user_view s' u' = user_view s u'.
Proof.
  intros Hne. unfold quiz.
  destruct qs as [|q0 qs]; [intros [= <- _ _]; frame_lookups|].
  simpl. destruct (needs_new_plan _ _).
  - rewrite init_key_lookup. destruct (build_plan _ _ _) as [[|q p] g].
    + intros [= <- _ _]. frame_lookups.
    + intros Hp. rewrite (present_frame _ _ _ _ _ _ _ _ Hne Hp). frame_lookups.
  - intros Hp. rewrite (present_frame _ _ _ _ _ _ _ _ Hne Hp). frame_lookups.
Qed.

Lemma advance_frame u s u' :
  u ≠ u' → user_view (advance u s).1 u' = user_view s u'.
Proof. intros Hne. rewrite advance_spec. simpl. case_decide; frame_lookups. Qed.

Lemma handle_answer_frame u a s s' out c u' :
  u ≠ u' → handle_answer u a s = Ok (s', out, c) →
  user_view s' u' = user_view s u'.
Proof.
  intros Hne. unfold handle_answer.
  destruct (current_question s !! u : option Question) as [q|]; [|by intros [= <- _ _]].
  simpl. case_decide.
  - rewrite lookup_insert_eq.
    pose proof (advance_frame u (upd_scores <[u := score_of s u + 1]> s) u' Hne) as Hadv.
    destruct (advance _ _) as [s1 out1]. intros [= <- _ _]. simpl in Hadv.
    rewrite Hadv. frame_lookups.
  - destruct (user_scores s !! u); [|done].
    pose proof (advance_frame u s u' Hne) as Hadv.
    destruct (advance _ _) as [s1 out1]. by intros [= <- _ _].
Qed.

Lemma step_frame qs e s s' out c u' :
  event_user e ≠ u' → step qs e s = Ok (s', out, c) →
  user_view s' u' = user_view s u'.
Proof.
  destruct e as [u|u a|u d]; simpl; intros Hne.
  - by apply quiz_frame.
  - by apply handle_answer_frame.
  - intros [= <- _ _]. frame_lookups.
Qed.

(** X5: the callbacks keep users apart. A sequence of events, none of them
    from user [u'], leaves everything stored for [u'] as it was: score,
    difficulty, plan, index and current question. *)
Theorem run_other_users qs es s s' out u' :
  Forall (λ e, event_user e ≠ u') es →
  run qs es s = Ok (s', out) →
  user_view s' u' = user_view s u'.
Proof.
  intros Hes. revert s s' out. induction Hes as [|e es He _ IH]; intros s s' out; simpl.
  { by intros [= <- _]. }
  destruct (step qs e s) as [[[s1 out1] c]|] eqn:Hstep; [|done].
  destruct (run qs es s1) as [[s2 out2]|] eqn:Hrun; [|done].
  intros [= <- _]. rewrite (IH _ _ _ Hrun). by eapply step_frame.
Qed.

Lemma run_other_users_witness :
  user_view (state_after easy_catalog [SubmitAnswer 8 "Ciri"; StartQuiz 8] asked_state) 7
  = user_view asked_state 7.
Proof.
  apply (run_other_users easy_catalog [SubmitAnswer 8 "Ciri"; StartQuiz 8] asked_state
           _ (match run easy_catalog [SubmitAnswer 8 "Ciri"; StartQuiz 8] asked_state with
              | Ok (_, out) => out | Raise _ => [] end) 7).
  - repeat constructor; vm_compute; discriminate.
  - vm_compute. reflexivity.
Defined.

(** ** Invariants of reachable sessions *)

Lemma build_plan_length_le qs d g : length (build_plan qs d g).1 ≤ 10.
Proof.
  destruct d as [|n]; simpl.
  - unfold _build_all_levels_plan.
    destruct (first_pass _ levels [] g) as [plan1 g1].
    destruct (if decide (length plan1 < 10) then _ else _) as [plan2 g2].
    destruct (shuffle plan2 g2) as [plan g3]. simpl. rewrite length_take. lia.
  - unfold _build_single_level_plan.
    destruct (shuffle _ g) as [pool g']. simpl. rewrite length_take. lia.
Qed.

Lemma user_view_eq s s' u :
  user_view s' u = user_view s u →
  plan_of s' u = plan_of s u ∧ index_of s' u = index_of s u ∧
  score_of s' u = score_of s u.
Proof.
  unfold user_view, plan_of, index_of, score_of. by intros [= -> _ -> -> _].
Qed.

Lemma plan_inv_frame s s' u :
  (∀ u', u ≠ u' → user_view s' u' = user_view s u') →
  plan_inv s →
  (plan_of s' u ≠ [] →
     index_of s' u < length (plan_of s' u) ∧ length (plan_of s' u) ≤ 10 ∧
     score_of s' u ≤ index_of s' u) →
  plan_inv s'.
Proof.
  intros Hframe Hinv Hu u'. destruct (decide (u = u')) as [<-|Hne]; [done|].
  destruct (user_view_eq s s' u' (Hframe u' Hne)) as (-> & -> & ->). apply Hinv.
Qed.

Lemma needs_new_plan_inv s u :
  plan_inv s →
  needs_new_plan (user_question_list s !! u) (index_of s u) = true →
  plan_of s u = [].
Proof.
  intros Hinv Hnew. specialize (Hinv u). unfold plan_of in *.
  destruct (user_question_list s !! u) as [[|q p]|]; simpl in *; [done| |done].
  apply bool_decide_eq_true in Hnew. destruct Hinv as [? _]; [done|]. simpl in *. lia.
Qed.

Lemma quiz_plan_inv qs u s s' out c :
  plan_inv s → quiz qs u s = Ok (s', out, c) → plan_inv s'.
Proof.
  intros Hinv Hquiz.
  apply (plan_inv_frame s s' u); [|done|].
  { intros u' Hne. by eapply quiz_frame. }
  destruct (decide (qs = [])) as [->|Hqs].
  { injection Hquiz as <- _ _. intros Hp. destruct (Hinv u Hp) as (? & ? & ?).
    unfold plan_of, index_of, score_of in *. simpl in *.
    by rewrite init_key_lookup. }
  destruct (needs_new_plan (user_question_list s !! u) (index_of s u)) eqn:Hnew.
  - pose proof (build_plan_length_le qs (default AllLevels (user_difficulty s !! u))
                  (random_state s)) as Hlen.
    destruct (build_plan qs _ (random_state s)) as [plan g] eqn:Hbuild.
    rewrite (quiz_new_plan qs u s plan g Hqs Hnew Hbuild) in Hquiz.
    destruct plan as [|q p]; injection Hquiz as <- _ _.
    + intros Hp. destruct Hp. exact (needs_new_plan_inv s u Hinv Hnew).
    + intros _. unfold plan_of, index_of, score_of. simpl.
      rewrite !lookup_insert_eq. simpl in *. lia.
  - apply needs_new_plan_false in Hnew as (p & Hp & Hlt).
    destruct (quiz_in_progress qs u s p Hqs Hp Hlt) as (q & _ & Hq).
    rewrite Hq in Hquiz. injection Hquiz as <- _ _.
    intros Hne. destruct (Hinv u Hne) as (? & ? & ?).
    unfold plan_of, index_of, score_of in *. simpl in *.
    by rewrite init_key_lookup.
Qed.

Lemma advance_plan_inv u s bound :
  (plan_of s u ≠ [] →
     index_of s u < length (plan_of s u) ∧ length (plan_of s u) ≤ 10 ∧
     bound ≤ index_of s u) →
  score_of s u ≤ bound + 1 →
  plan_of (advance u s).1 u ≠ [] →
  index_of (advance u s).1 u < length (plan_of (advance u s).1 u) ∧
  length (plan_of (advance u s).1 u) ≤ 10 ∧
  score_of (advance u s).1 u ≤ index_of (advance u s).1 u.
Proof.
  intros Hinv Hscore. rewrite advance_spec. simpl. case_decide as Hend.
  - unfold plan_of. simpl. by rewrite lookup_insert_eq.
  - unfold plan_of, index_of, score_of. simpl. rewrite lookup_insert_eq. simpl.
    fold (plan_of s u) (index_of s u) (score_of s u). intros Hp.
    destruct (Hinv Hp) as (? & ? & ?). lia.
Qed.

Lemma handle_answer_plan_inv u a s s' out c :
  plan_inv s → handle_answer u a s = Ok (s', out, c) → plan_inv s'.
Proof.
  intros Hinv Hans.
  apply (plan_inv_frame s s' u); [|done|].
  { intros u' Hne. by eapply handle_answer_frame. }
  revert Hans. unfold handle_answer.
  destruct (current_question s !! u : option Question) as [q|];
    [|intros [= <- _ _]; apply Hinv].
  simpl. case_decide.
  - rewrite lookup_insert_eq.
    pose proof (advance_plan_inv u (upd_scores <[u := score_of s u + 1]> s)
                  (score_of s u)) as Hadv.
    destruct (advance _ _) as [s1 out1]. intros [= <- _ _]. simpl in Hadv.
    apply Hadv; [apply Hinv|]. by rewrite upd_scores_insert_score.
  - destruct (user_scores s !! u) eqn:Hn; [|done].
    pose proof (advance_plan_inv u s (score_of s u)) as Hadv.
    destruct (advance _ _) as [s1 out1]. intros [= <- _ _]. simpl in Hadv.
    apply Hadv; [apply Hinv|lia].
Qed.

Lemma initial_state_plan_inv g : plan_inv (initial_state g).
Proof. intros u Hp. by destruct Hp. Qed.

Lemma run_invariants qs es s :
  session_inv s → plan_inv s →
  ∃ s' out, run qs es s = Ok (s', out) ∧ session_inv s' ∧ plan_inv s'.
Proof.
  revert s. induction es as [|e es IH]; intros s Hs Hp; simpl.
  { by eexists _, _. }
  assert (∃ s1 out1 c, step qs e s = Ok (s1, out1, c) ∧ session_inv s1 ∧ plan_inv s1)
    as (s1 & out1 & c & -> & Hs1 & Hp1).
  { destruct e as [u|u a|u d]; simpl.
    - destruct (quiz_returns qs u s) as (s1 & out1 & c & Hq).
      eexists _, _, _. split; [done|].
      split; [by eapply quiz_inv|by eapply quiz_plan_inv].
    - destruct (handle_answer_returns u a s Hs) as (s1 & out1 & Ha & ?).
      eexists _, _, _. split; [done|]. split; [done|by eapply handle_answer_plan_inv].
    - eexists _, _, _. split; [done|]. done. }
  destruct (IH s1 Hs1 Hp1) as (s' & out & -> & ? & ?).
  by eexists _, _.
Qed.

(** With difficulty data that are integers already, every sequence of
    events returns from the start state: the lookups
    [user_scores[user_id]], [user_difficulty[user_id]] and [plan[idx]]
    always find their key. *)
Lemma run_never_raises qs es g :
  ∃ s' out, run qs es (initial_state g) = Ok (s', out).
Proof.
  destruct (run_invariants qs es (initial_state g)
              (initial_state_inv g) (initial_state_plan_inv g))
    as (s' & out & Hrun & _).
  by eexists _, _.
Qed.


(** ** Summaries, difficulty changes and the score report *)




(** X9: choosing a difficulty in the middle of a plan does not touch the
    plan: the next /quiz presents the question at the current index of the
    same plan, with the score kept; only the stored difficulty is new. *)
Theorem difficulty_change_keeps_plan qs u data s plan :
  qs ≠ [] →
  user_question_list s !! u = Some plan →
  index_of s u < length plan →
  ∃ s' q,
    plan !! index_of s u = Some q ∧
    quiz qs u (handle_difficulty u data s).1.1
      = Ok (s', [AskQuestion (index_of s u + 1) (length plan) q], QUESTION) ∧
    user_question_list s' !! u = Some plan ∧
    user_question_index s' !! u = user_question_index s !! u ∧
    score_of s' u = score_of s u ∧
    user_difficulty s' !! u
      = Some (if decide (data = 0%Z) then AllLevels else Level data).
Proof.
  intros Hqs Hplan Hidx.
  destruct (quiz_in_progress qs u (handle_difficulty u data s).1.1 plan Hqs Hplan Hidx)
    as (q & Hq & Hquiz).
  eexists _, q. split; [exact Hq|]. split; [exact Hquiz|].
  split_and!; try done.
  - unfold score_of. simpl. by rewrite init_key_lookup.
  - simpl. by rewrite init_key_lookup, lookup_insert_eq.
Qed.

Lemma difficulty_change_keeps_plan_witness :
  ∃ s' q,
    plan_of last_question_state 7 !! index_of last_question_state 7 = Some q ∧
    quiz easy_catalog 7 (handle_difficulty 7 4 last_question_state).1.1
      = Ok (s', [AskQuestion (index_of last_question_state 7 + 1)
                   (length (plan_of last_question_state 7)) q], QUESTION) ∧
    user_question_list s' !! 7%Z = Some (plan_of last_question_state 7) ∧
    user_question_index s' !! 7%Z = user_question_index last_question_state !! 7%Z ∧
    score_of s' 7 = score_of last_question_state 7 ∧
    user_difficulty s' !! 7%Z = Some (if decide (4 = 0)%Z then AllLevels else Level 4).
Proof.
  apply (difficulty_change_keeps_plan easy_catalog 7 4 last_question_state
           (plan_of last_question_state 7)).
  - vm_compute. discriminate.
  - reflexivity.
  - vm_compute. lia.
Defined.

Lemma single_level_plan_facts qs level g :
  length (_build_single_level_plan qs level g).1 = 10 `min` tier_count level qs ∧
  Forall (λ q, get_difficulty q = level) (_build_single_level_plan qs level g).1.
Proof.
  unfold _build_single_level_plan.
  pose proof (shuffle_Permutation (of_level level qs) g) as Hsh.
  unfold of_level in Hsh.
  destruct (shuffle (filter _ qs) g) as [pool g']. simpl in *. split.
  - by rewrite length_take, Hsh.
  - apply Forall_take. rewrite Hsh. apply Forall_forall. intros q.
    rewrite list_elem_of_filter. tauto.
Qed.

(** X10: after a level other than 0 is chosen, a /quiz that has to build
    a plan builds it from that level only: with no question on the level
    it answers "no questions for level" and stores no plan; otherwise it
    stores min(10, size of the level) questions, all of the level, and
    presents the first. *)
Theorem quiz_uses_selected_level qs u data s :
  qs ≠ [] →
  data ≠ 0%Z →
  needs_new_plan (user_question_list s !! u) (index_of s u) = true →
  ∃ s' out c,
    quiz qs u (handle_difficulty u data s).1.1 = Ok (s', out, c) ∧
    (tier_count data qs = 0 →
       out = [NoQuestionsForLevel data] ∧ c = END ∧
       user_question_list s' = user_question_list s) ∧
    (tier_count data qs ≠ 0 →
       ∃ q, out = [AskQuestion 1 (10 `min` tier_count data qs) q] ∧ c = QUESTION ∧
            plan_of s' u !! 0 = Some q ∧
            length (plan_of s' u) = 10 `min` tier_count data qs ∧
            Forall (λ q, get_difficulty q = data) (plan_of s' u)).
Proof.
  intros Hqs Hdata Hnew.
  set (s1 := (handle_difficulty u data s).1.1).
  assert (user_difficulty s1 !! u = Some (Level data)) as Hd.
  { subst s1. simpl. by rewrite decide_False, lookup_insert_eq. }
  destruct (single_level_plan_facts qs data (random_state s)) as [Hlen Hall].
  destruct (_build_single_level_plan qs data (random_state s)) as [plan g] eqn:Hbuild.
  simpl in Hlen, Hall.
  pose proof (quiz_new_plan qs u s1 plan g Hqs Hnew) as Hquiz.
  rewrite Hd in Hquiz. specialize (Hquiz Hbuild). simpl in Hquiz.
  destruct plan as [|q p]; rewrite Hquiz; eexists _, _, _; (split; [done|]).
  - split; [done|]. intros Hcount. simpl in Hlen. lia.
  - split; [intros Hcount; simpl in Hlen; lia|]. intros _.
    exists q. unfold plan_of. simpl. rewrite lookup_insert_eq. simpl.
    rewrite <- Hlen. done.
Qed.

Lemma quiz_uses_selected_level_witness :
  ∃ s' out c,
    quiz sparse_catalog 7 (handle_difficulty 7 3 (initial_state draws)).1.1
      = Ok (s', out, c) ∧
    (tier_count 3 sparse_catalog = 0 →
       out = [NoQuestionsForLevel 3] ∧ c = END ∧
       user_question_list s' = user_question_list (initial_state draws)) ∧
    (tier_count 3 sparse_catalog ≠ 0 →
       ∃ q, out = [AskQuestion 1 (10 `min` tier_count 3 sparse_catalog) q] ∧
            c = QUESTION ∧
            plan_of s' 7 !! 0 = Some q ∧
            length (plan_of s' 7) = 10 `min` tier_count 3 sparse_catalog ∧
            Forall (λ q, get_difficulty q = 3%Z) (plan_of s' 7)).
Proof.
  apply (quiz_uses_selected_level sparse_catalog 7 3 (initial_state draws)).
  - vm_compute. discriminate.
  - lia.
  - reflexivity.
Defined.

(** X11: a user without stored difficulty or plan gets the all-levels
    plan: the difficulty is recorded as "all levels", the score is 0, and
    the reply is "no questions" exactly when no question of the catalog has
    a level in 1..5; otherwise question 1 of min(10, number of those) is
    presented. *)
Theorem quiz_first_time qs u s :
  distinct_objects qs →
  qs ≠ [] →
  user_difficulty s !! u = None →
  user_question_list s !! u = None →
  ∃ s' out c,
    quiz qs u s = Ok (s', out, c) ∧
    user_difficulty s' !! u = Some AllLevels ∧
    user_scores s' !! u = Some 0 ∧
    (available qs = [] →
       out = [NoQuestionsAll] ∧ c = END ∧ user_question_list s' !! u = None) ∧
    (available qs ≠ [] →
       ∃ q, out = [AskQuestion 1 (10 `min` length (available qs)) q] ∧
            c = QUESTION ∧
            in_levels (get_difficulty q) ∧
            plan_of s' u !! 0 = Some q ∧
            current_question s' !! u = Some q).
Proof.
  intros Hdist Hqs Hd Hplan.
  destruct (build_all_levels_spec qs (random_state s) Hdist) as [Hsub Hlen].
  destruct (_build_all_levels_plan qs (random_state s)) as [plan g] eqn:Hbuild.
  simpl in Hsub, Hlen.
  pose proof (quiz_new_plan qs u s plan g Hqs) as Hquiz.
  rewrite Hplan, Hd in Hquiz. specialize (Hquiz eq_refl Hbuild). simpl in Hquiz.
  destruct plan as [|q p]; rewrite Hquiz; eexists _, _, _; (split; [done|]); simpl.
  - rewrite init_key_lookup, Hd, lookup_insert_eq. split_and!; try done.
    intros Hav. exfalso. destruct (available qs); [done|]. simpl in Hlen. lia.
  - rewrite init_key_lookup, Hd, !lookup_insert_eq. split_and!; try done.
    { intros Hav. rewrite Hav in Hlen. simpl in Hlen. lia. }
    intros _. exists q. rewrite <- Hlen. split_and!; try done.
    + assert (q ∈ available qs) as Hq
        by (eapply elem_of_submseteq; [|exact Hsub]; left).
      unfold available in Hq. apply list_elem_of_filter in Hq. tauto.
    + unfold plan_of. simpl. by rewrite lookup_insert_eq.
Qed.

Lemma quiz_first_time_witness :
  ∃ s' out c,
    quiz sparse_catalog 7 (initial_state draws) = Ok (s', out, c) ∧
    user_difficulty s' !! 7%Z = Some AllLevels ∧
    user_scores s' !! 7%Z = Some 0 ∧
    (available sparse_catalog = [] →
       out = [NoQuestionsAll] ∧ c = END ∧ user_question_list s' !! 7%Z = None) ∧
    (available sparse_catalog ≠ [] →
       ∃ q, out = [AskQuestion 1 (10 `min` length (available sparse_catalog)) q] ∧
            c = QUESTION ∧
            in_levels (get_difficulty q) ∧
            plan_of s' 7 !! 0 = Some q ∧
            current_question s' !! 7%Z = Some q).
Proof.
  apply (quiz_first_time sparse_catalog 7 (initial_state draws)).
  - unfold distinct_objects. by apply (bool_decide_unpack _).
  - vm_compute. discriminate.
  - reflexivity.
  - reflexivity.
Defined.

Lemma quiz_registers qs u s :
  ∃ s' out c n d,
    quiz qs u s = Ok (s', out, c) ∧
    user_scores s' !! u = Some n ∧ user_difficulty s' !! u = Some d.
Proof.
  destruct (decide (qs = [])) as [->|Hqs].
  { eexists _, _, _, _, _. split; [done|]. simpl. by rewrite !init_key_lookup. }
  destruct (needs_new_plan (user_question_list s !! u) (index_of s u)) eqn:Hnew.
  - destruct (build_plan qs (default AllLevels (user_difficulty s !! u))
                (random_state s)) as [plan g] eqn:Hbuild.
    rewrite (quiz_new_plan qs u s plan g Hqs Hnew Hbuild).
    destruct plan as [|q p]; eexists _, _, _, _, _; (split; [done|]); simpl;
      by rewrite init_key_lookup, lookup_insert_eq.
  - apply needs_new_plan_false in Hnew as (p & Hp & Hlt).
    destruct (quiz_in_progress qs u s p Hqs Hp Hlt) as (q & _ & ->).
    eexists _, _, _, _, _. split; [done|]. simpl. by rewrite !init_key_lookup.
Qed.

(** X12: /score tells "not played yet" by the score entry alone. After any
    /quiz, even one refused for lack of questions, it reports a score and a
    difficulty that is set; choosing a difficulty does not count as having
    played. *)
Theorem score_report qs u data s :
  (∃ s' out c n d,
     quiz qs u s = Ok (s', out, c) ∧ score u s' = ScoreReport n (Some d)) ∧
  score u (handle_difficulty u data s).1.1 =
    match user_scores s !! u with
    | Some n => ScoreReport n (Some (if decide (data = 0%Z) then AllLevels else Level data))
    | None => NeverPlayed
    end.
Proof.
  split.
  - destruct (quiz_registers qs u s) as (s' & out & c & n & d & Hquiz & Hn & Hd).
    exists s', out, c, n, d. split; [done|]. unfold score. by rewrite Hn, Hd.
  - unfold score. simpl. destruct (user_scores s !! u); [|done].
    by rewrite lookup_insert_eq.
Qed.

(** X13: whenever /quiz presents a question, it is the plan entry at the
    stored index, it is also the stored current question, and the header
    "question k of n" has k = index + 1 and n = length of the plan, so
    1 <= k <= n. *)
Theorem quiz_asks_current qs u s s' out :
  quiz qs u s = Ok (s', out, QUESTION) →
  ∃ q,
    out = [AskQuestion (index_of s' u + 1) (length (plan_of s' u)) q] ∧
    plan_of s' u !! index_of s' u = Some q ∧
    current_question s' !! u = Some q ∧
    index_of s' u + 1 ≤ length (plan_of s' u).
Proof.
  intros Hquiz.
  destruct (decide (qs = [])) as [->|Hqs]; [done|].
  destruct (needs_new_plan (user_question_list s !! u) (index_of s u)) eqn:Hnew.
  - destruct (build_plan qs (default AllLevels (user_difficulty s !! u))
                (random_state s)) as [plan g] eqn:Hbuild.
    rewrite (quiz_new_plan qs u s plan g Hqs Hnew Hbuild) in Hquiz.
    destruct plan as [|q p]; [done|]. injection Hquiz as <- <-.
    exists q. unfold plan_of, index_of. simpl. rewrite !lookup_insert_eq. simpl.
    split_and!; try done. lia.
  - apply needs_new_plan_false in Hnew as (p & Hp & Hlt).
    destruct (quiz_in_progress qs u s p Hqs Hp Hlt) as (q & Hq & Hquiz').
    rewrite Hquiz' in Hquiz. injection Hquiz as <- <-.
    exists q. unfold plan_of, index_of in *. simpl. rewrite Hp, lookup_insert_eq. simpl.
    split_and!; try done. lia.
Qed.

Lemma quiz_asks_current_witness :
  ∃ q,
    [AskQuestion 3 3
       {| obj_id := 0; fields := sample "a" "Geralt" "Vesemir" (Some 1%Z) |}]
      = [AskQuestion (index_of last_question_state 7 + 1)
           (length (plan_of last_question_state 7)) q] ∧
    plan_of last_question_state 7 !! index_of last_question_state 7 = Some q ∧
    current_question last_question_state !! 7%Z = Some q ∧
    index_of last_question_state 7 + 1 ≤ length (plan_of last_question_state 7).
Proof.
  apply (quiz_asks_current easy_catalog 7 last_question_state last_question_state
           [AskQuestion 3 3
              {| obj_id := 0; fields := sample "a" "Geralt" "Vesemir" (Some 1%Z) |}]).
  vm_compute. reflexivity.
Defined.

(** ** Playing a plan to its end *)

Lemma count_correct_cons (q : Question) plan a answers :
  count_correct (q :: plan) (a :: answers) =
    (if decide (a = correct_answer q) then 1 else 0) + count_correct plan answers.
Proof.
  unfold count_correct. simpl. case_decide.
  - by rewrite filter_cons_True.
  - by rewrite filter_cons_False.
Qed.

Lemma count_correct_nil_r plan : count_correct plan [] = 0.
Proof. unfold count_correct. by rewrite zip_with_nil_r. Qed.

Lemma advance_random_state u s : random_state (advance u s).1 = random_state s.
Proof. rewrite advance_spec. simpl. by case_decide. Qed.

Lemma answer_step u a s (q : Question) n p :
  current_question s !! u = Some q →
  user_scores s !! u = Some n →
  user_question_list s !! u = Some p →
  p ≠ [] →
  ∃ s' out,
    handle_answer u a s = Ok (s', out, END) ∧
    user_scores s' !! u = Some (n + if decide (a = correct_answer q) then 1 else 0) ∧
    current_question s' = current_question s ∧
    random_state s' = random_state s ∧
    if decide (length p ≤ index_of s u + 1) then
      last out = Some (Finished (n + if decide (a = correct_answer q) then 1 else 0)
                         (length p)) ∧
      user_question_list s' !! u = Some [] ∧
      user_question_index s' !! u = Some 0
    else
      user_question_list s' !! u = Some p ∧
      user_question_index s' !! u = Some (index_of s u + 1).
Proof.
  intros Hq Hn Hp Hne. rewrite (handle_answer_spec u a s q n Hq Hn).
  eexists _, _. split; [done|].
  set (s1 := if decide (a = correct_answer q) then _ else s).
  assert (plan_of s1 u = p ∧ index_of s1 u = index_of s u ∧
          current_question s1 = current_question s ∧
          random_state s1 = random_state s ∧
          user_question_list s1 !! u = Some p ∧
          user_scores s1 !! u
            = Some (n + if decide (a = correct_answer q) then 1 else 0))
    as (Hp1 & Hi1 & Hc1 & Hr1 & Hl1 & Hs1).
  { subst s1. unfold plan_of. case_decide; simpl; rewrite Hp.
    - by rewrite lookup_insert_eq.
    - rewrite Hn. split_and!; try done. f_equal. lia. }
  rewrite advance_scores, advance_current_question, advance_random_state.
  do 3 (split; [done|]).
  rewrite advance_spec. simpl. rewrite Hp1, Hi1.
  destruct (decide (length p ≤ index_of s u + 1)).
  - simpl. rewrite !lookup_insert_eq. split_and!; try done.
    unfold score_of. rewrite Hs1. simpl. by destruct p.
  - simpl. by rewrite lookup_insert_eq.
Qed.

Lemma run_cons qs e es s s1 out1 c s2 out2 :
  step qs e s = Ok (s1, out1, c) →
  run qs es s1 = Ok (s2, out2) →
  run qs (e :: es) s = Ok (s2, out1 ++ out2).
Proof. intros Hstep Hrun. simpl. by rewrite Hstep, Hrun. Qed.

Lemma rounds_cons u a answers :
  rounds u (a :: answers) = StartQuiz u :: SubmitAnswer u a :: rounds u answers.
Proof. done. Qed.

(** From a pending question to the end of the plan: the answer to it, then
    /quiz and an answer for each question left. *)
Lemma answer_then_rounds qs u p rest :
  qs ≠ [] →
  ∀ a s i (q : Question) n,
    user_question_list s !! u = Some p →
    index_of s u = i →
    p !! i = Some q →
    current_question s !! u = Some q →
    user_scores s !! u = Some n →
    i + 1 + length rest = length p →
    ∃ s' out,
      run qs (SubmitAnswer u a :: rounds u rest) s = Ok (s', out) ∧
      user_scores s' !! u = Some (n + count_correct (drop i p) (a :: rest)) ∧
      last out = Some (Finished (n + count_correct (drop i p) (a :: rest)) (length p)) ∧
      user_question_list s' !! u = Some [] ∧
      user_question_index s' !! u = Some 0 ∧
      random_state s' = random_state s.
Proof.
  intros Hqs. induction rest as [|a' rest IH]; intros a s i q n Hp Hi Hpi Hq Hn Hlen.
  - assert (p ≠ []) as Hne by (intros ->; done).
    destruct (answer_step u a s q n p Hq Hn Hp Hne)
      as (s' & out & Hans & Hs' & _ & Hr' & Hend).
    rewrite decide_True in Hend by (simpl in Hlen; lia).
    destruct Hend as (Hlast & Hl' & Hi').
    exists s', (out ++ []).
    split; [apply (run_cons qs (SubmitAnswer u a) [] s s' out END s' [] Hans eq_refl)|].
    rewrite (drop_S p q i Hpi), count_correct_cons.
    rewrite count_correct_nil_r, Nat.add_0_r, app_nil_r. done.
  - assert (p ≠ []) as Hne by (intros ->; done).
    destruct (answer_step u a s q n p Hq Hn Hp Hne)
      as (s1 & out1 & Hans & Hs1 & Hc1 & Hr1 & Hend).
    rewrite decide_False in Hend by (simpl in Hlen; lia).
    destruct Hend as (Hl1 & Hi1). rewrite Hi in Hi1.
    assert (index_of s1 u = i + 1) as Hidx1 by (unfold index_of; by rewrite Hi1).
    destruct (quiz_in_progress qs u s1 p Hqs Hl1) as (q' & Hq' & Hquiz).
    { rewrite Hidx1. simpl in Hlen. lia. }
    rewrite Hidx1 in Hq', Hquiz.
    set (s2 := upd_current_question <[u := q']> _) in Hquiz.
    destruct (IH a' s2 (i + 1) q' (n + if decide (a = correct_answer q) then 1 else 0))
      as (s' & out & Hrun & Hs' & Hlast & Hl' & Hi' & Hr').
    { done. }
    { done. }
    { done. }
    { subst s2. simpl. by rewrite lookup_insert_eq. }
    { subst s2. simpl. by rewrite init_key_lookup, Hs1. }
    { simpl in Hlen. lia. }
    exists s', (out1 ++ [AskQuestion (i + 1 + 1) (length p) q'] ++ out).
    split.
    { rewrite rounds_cons.
      apply (run_cons qs (SubmitAnswer u a) _ s s1 out1 END s' _ Hans).
      apply (run_cons qs (StartQuiz u) _ s1 s2 _ QUESTION s' out Hquiz Hrun). }
    rewrite (drop_S p q i Hpi), count_correct_cons.
    replace (S i) with (i + 1) by lia. rewrite Nat.add_assoc.
    split_and!; try done.
    + rewrite !last_app, Hlast. done.
    + by rewrite Hr', <- Hr1.
Qed.

(** X14: a whole quiz. When /quiz builds a plan of as many questions as
    the user then answers, one /quiz per answer in between, the last reply
    is the summary with the length of the plan as total and, as score, the
    number of answers that equal the [correct_answer] of the question at
    their place in the plan, whatever the user's score was before. The plan
    is then cleared and the index back at 0. *)
Theorem play_whole_plan qs u s a answers :
  qs ≠ [] →
  needs_new_plan (user_question_list s !! u) (index_of s u) = true →
  let d := default AllLevels (user_difficulty s !! u) in
  let plan := (build_plan qs d (random_state s)).1 in
  length plan = length (a :: answers) →
  ∃ s' out,
    run qs (rounds u (a :: answers)) s = Ok (s', out) ∧
    user_scores s' !! u = Some (count_correct plan (a :: answers)) ∧
    last out = Some (Finished (count_correct plan (a :: answers)) (length plan)) ∧
    user_question_list s' !! u = Some [] ∧
    user_question_index s' !! u = Some 0.
Proof.
  intros Hqs Hnew d plan Hlen. subst plan.
  destruct (build_plan qs d (random_state s)) as [plan g] eqn:Hbuild.
  cbn [fst] in *. destruct plan as [|q p]; [done|].
  pose proof (quiz_new_plan qs u s (q :: p) g Hqs Hnew Hbuild) as Hquiz.
  simpl in Hquiz. set (s1 := upd_current_question <[u := q]> _) in Hquiz.
  destruct (answer_then_rounds qs u (q :: p) answers Hqs a s1 0 q 0)
    as (s' & out & Hrun & Hs' & Hlast & Hl' & Hi' & _).
  { subst s1. simpl. by rewrite lookup_insert_eq. }
  { subst s1. unfold index_of. simpl. by rewrite lookup_insert_eq. }
  { done. }
  { subst s1. simpl. by rewrite lookup_insert_eq. }
  { subst s1. simpl. by rewrite lookup_insert_eq. }
  { simpl in *. lia. }
  exists s', ([AskQuestion 1 (length (q :: p)) q] ++ out).
  split; [|split_and!; try done].
  - rewrite rounds_cons.
    apply (run_cons qs (StartQuiz u) _ s s1 _ QUESTION s' out Hquiz Hrun).
  - rewrite last_app, Hlast. done.
Qed.

Lemma play_whole_plan_witness :
  ∃ s' out,
    run easy_catalog (rounds 7 ["Ciri"; "Vesemir"; "Geralt"]) (initial_state draws)
      = Ok (s', out) ∧
    user_scores s' !! 7%Z
      = Some (count_correct (build_plan easy_catalog AllLevels draws).1
                ["Ciri"; "Vesemir"; "Geralt"]) ∧
    last out
      = Some (Finished
                (count_correct (build_plan easy_catalog AllLevels draws).1
                   ["Ciri"; "Vesemir"; "Geralt"])
                (length (build_plan easy_catalog AllLevels draws).1)) ∧
    user_question_list s' !! 7%Z = Some [] ∧
    user_question_index s' !! 7%Z = Some 0.
Proof.
  apply (play_whole_plan easy_catalog 7 (initial_state draws) "Ciri" ["Vesemir"; "Geralt"]).
  - vm_compute. discriminate.
  - reflexivity.
  - vm_compute. reflexivity.
Defined.

(** The run behind the witness: the plan is c, b, a; the second answer is
    wrong, so the summary reads 2 of 3. *)
Example play_whole_plan_run :
  ∃ s', run easy_catalog (rounds 7 ["Ciri"; "Vesemir"; "Geralt"]) (initial_state draws)
        = Ok (s',
              [AskQuestion 1 3 {| obj_id := 2; fields := sample "c" "Ciri" "Pavetta" (Some 1%Z) |};
               Correct "" 1;
               AskQuestion 2 3 {| obj_id := 1; fields := sample "b" "Roach" "Kelpie" (Some 1%Z) |};
               Wrong "Roach" "" 1;
               AskQuestion 3 3 {| obj_id := 0; fields := sample "a" "Geralt" "Vesemir" (Some 1%Z) |};
               Correct "" 2;
               Finished 2 3]).
Proof. eexists. vm_compute. reflexivity. Qed.

(** X15: [handle_answer] has no guard of its own against a button pressed
    twice: the stored question stays, so a second call with the right text
    scores the same question again. Two calls in a row raise the score by
    2. *)
Theorem handle_answer_twice u a s (q : Question) n :
  current_question s !! u = Some q →
  user_scores s !! u = Some n →
  a = correct_answer q →
  ∃ s1 out1 s2 out2,
    handle_answer u a s = Ok (s1, out1, END) ∧
    handle_answer u a s1 = Ok (s2, out2, END) ∧
    user_scores s1 !! u = Some (n + 1) ∧
    user_scores s2 !! u = Some (n + 2).
Proof.
  intros Hq Hn Ha.
  pose proof (handle_answer_spec u a s q n Hq Hn) as H1.
  cbv zeta in H1. destruct (decide (a = correct_answer q)); [|done].
  set (s1 := (advance u (upd_scores <[u := n + 1]> s)).1) in *.
  assert (current_question s1 !! u = Some q) as Hq1.
  { subst s1. by rewrite advance_current_question. }
  assert (user_scores s1 !! u = Some (n + 1)) as Hn1.
  { subst s1. rewrite advance_scores. simpl. by rewrite lookup_insert_eq. }
  pose proof (handle_answer_spec u a s1 q (n + 1) Hq1 Hn1) as H2.
  cbv zeta in H2. destruct (decide (a = correct_answer q)); [|done].
  eexists _, _, _, _. split; [exact H1|]. split; [exact H2|]. split; [done|].
  rewrite advance_scores. simpl. rewrite lookup_insert_eq. f_equal. lia.
Qed.

Lemma handle_answer_twice_witness :
  ∃ s1 out1 s2 out2,
    handle_answer 7 "Ciri" asked_state = Ok (s1, out1, END) ∧
    handle_answer 7 "Ciri" s1 = Ok (s2, out2, END) ∧
    user_scores s1 !! 7%Z = Some (0 + 1) ∧
    user_scores s2 !! 7%Z = Some (0 + 2).
Proof.
  apply (handle_answer_twice 7 "Ciri" asked_state
           {| obj_id := 2; fields := sample "c" "Ciri" "Pavetta" (Some 1%Z) |} 0);
    reflexivity.
Defined.

(** ** What a callback can raise *)

Lemma handle_answer_inv u a s s' out c :
  session_inv s → handle_answer u a s = Ok (s', out, c) → session_inv s'.
Proof.
  intros Hinv Hans.
  destruct (handle_answer_returns u a s Hinv) as (s1 & out1 & Hans1 & Hinv1).
  rewrite Hans in Hans1. by injection Hans1 as -> _.
Qed.

Lemma lift_Returned {A} (r : Result A) a : lift r = Returned a → r = Ok a.
Proof. destruct r; simpl; congruence. Qed.

Lemma reachable_session_inv int qs s : reachable int qs s → session_inv s.
Proof.
  induction 1 as [g|s upd s' out c _ IH Hstep]; [apply initial_state_inv|].
  destruct upd as [u|u data|u data]; simpl in Hstep.
  - apply lift_Returned in Hstep. by eapply quiz_inv.
  - apply lift_Returned in Hstep. by eapply handle_answer_inv.
  - unfold handle_difficulty_data in Hstep.
    destruct (int data); [|done]. by injection Hstep as <- _ _.
Qed.

(** X6: in every state the bot reaches from empty dictionaries, for every
    catalog and every outcome of the shuffles, the only exception a
    callback can raise is the [ValueError] of [int(query.data)] in
    [handle_difficulty], on text that is no integer. [quiz] and
    [handle_answer] always return: [user_scores[user_id]],
    [user_difficulty[user_id]] and [plan[idx]] find their key. *)
Theorem only_bad_numbers_raise int qs s upd :
  reachable int qs s →
  ((∃ s' out c, dispatch int qs upd s = Returned (s', out, c)) ∨
   (∃ u data, upd = DifficultyButton u data ∧ int data = None ∧
              dispatch int qs upd s = Failed ValueError)) ∧
  (∀ e, dispatch int qs upd s ≠ Failed (LookupError e)).
Proof.
  intros Hreach. pose proof (reachable_session_inv int qs s Hreach) as Hinv.
  destruct upd as [u|u data|u data]; simpl.
  - destruct (quiz_returns qs u s) as (s' & out & c & ->). simpl.
    split; [left; by eexists _, _, _|done].
  - destruct (handle_answer_returns u data s Hinv) as (s' & out & -> & _). simpl.
    split; [left; by eexists _, _, _|done].
  - unfold handle_difficulty_data. destruct (int data) eqn:Hint.
    + split; [left; by eexists _, _, _|done].
    + split; [right; by exists u, data|done].
Qed.

Lemma only_bad_numbers_raise_witness :
  ((∃ s' out c,
      dispatch sample_int easy_catalog (DifficultyButton 7 "Ciri") asked_state
        = Returned (s', out, c)) ∨
   (∃ u data, DifficultyButton 7 "Ciri" = DifficultyButton u data ∧
              sample_int data = None ∧
              dispatch sample_int easy_catalog (DifficultyButton 7 "Ciri") asked_state
                = Failed ValueError)) ∧
  (∀ e, dispatch sample_int easy_catalog (DifficultyButton 7 "Ciri") asked_state
          ≠ Failed (LookupError e)).
Proof.
  apply (only_bad_numbers_raise sample_int easy_catalog asked_state
           (DifficultyButton 7 "Ciri")).
  eapply (reachable_step sample_int easy_catalog (initial_state draws) (QuizCommand 7)).
  - apply reachable_start.
  - vm_compute. reflexivity.
Defined.

(** ** Answers without a question to answer *)

Lemma handle_answer_keeps_question u a s s' out c :
  handle_answer u a s = Ok (s', out, c) →
  current_question s' = current_question s.
Proof.
  unfold handle_answer.
  destruct (current_question s !! u : option Question) as [q|]; [|by intros [= <- _ _]].
  simpl. case_decide.
  - rewrite lookup_insert_eq.
    pose proof (advance_current_question u (upd_scores <[u := score_of s u + 1]> s))
      as Hadv.
    destruct (advance _ _) as [s1 out1]. by intros [= <- _ _].
  - destruct (user_scores s !! u); [|done].
    pose proof (advance_current_question u s) as Hadv.
    destruct (advance _ _) as [s1 out1]. by intros [= <- _ _].
Qed.

Lemma quiz_keeps_question qs u0 s s' out c u :
  is_Some (current_question s !! u) →
  quiz qs u0 s = Ok (s', out, c) →
  is_Some (current_question s' !! u).
Proof.
  intros Hq Hquiz.
  destruct (decide (qs = [])) as [->|Hqs]; [by injection Hquiz as <- _ _|].
  destruct (needs_new_plan (user_question_list s !! u0) (index_of s u0)) eqn:Hnew.
  - destruct (build_plan qs (default AllLevels (user_difficulty s !! u0))
                (random_state s)) as [plan g] eqn:Hbuild.
    rewrite (quiz_new_plan qs u0 s plan g Hqs Hnew Hbuild) in Hquiz.
    destruct plan as [|q p]; injection Hquiz as <- _ _; [done|].
    simpl. by apply insert_is_Some.
  - apply needs_new_plan_false in Hnew as (p & Hp & Hlt).
    destruct (quiz_in_progress qs u0 s p Hqs Hp Hlt) as (q & _ & Hquiz').
    rewrite Hquiz' in Hquiz. injection Hquiz as <- _ _.
    simpl. by apply insert_is_Some.
Qed.

Lemma advance_no_restart u s : PleaseRestart ∉ (advance u s).2.
Proof.
  rewrite advance_spec. simpl. case_decide; simpl.
  - intros Hin. apply list_elem_of_singleton in Hin. discriminate.
  - apply not_elem_of_nil.
Qed.

(** C7, as stated, fails: user 7 has answered the first question, the
    callback has returned [END] and nothing waits for an answer. A second
    press of the same button is not turned away with "please restart": it
    is judged against the question still stored, and the score goes from 1
    to 2. *)
Lemma handle_answer_stale_counterexample :
  step easy_catalog (SubmitAnswer 7 "Ciri") asked_state
    = Ok (answered_state, [Correct "" 1], END) ∧
  ∃ s', handle_answer 7 "Ciri" answered_state = Ok (s', [Correct "" 2], END) ∧
        score_of answered_state 7 = 1 ∧
        score_of s' 7 = 2 ∧
        ¬ (handle_answer 7 "Ciri" answered_state
             = Ok (answered_state, [PleaseRestart], END)).
Proof.
  split; [vm_compute; reflexivity|].
  eexists. split_and!; try (vm_compute; reflexivity).
  intros H. apply (f_equal (λ r, match r with
                                 | Ok (_, out, _) => head out
                                 | Raise _ => None
                                 end)) in H.
  vm_compute in H. discriminate.
Qed.

(** C7, amended: [handle_answer] answers "please restart", changing
    nothing (so not the score), exactly when no current question is stored
    for the user. That is the case only until /quiz first presents a
    question to the user: no callback removes a stored question. An answer
    that comes after the question was answered is therefore not turned
    away. *)
Theorem handle_answer_restart_iff_unasked u a s :
  (current_question s !! u = None →
     handle_answer u a s = Ok (s, [PleaseRestart], END)) ∧
  (∀ s' out c,
     handle_answer u a s = Ok (s', out, c) →
     PleaseRestart ∈ out →
     current_question s !! u = None ∧ s' = s) ∧
  (∀ qs e s' out c,
     is_Some (current_question s !! u) →
     step qs e s = Ok (s', out, c) →
     is_Some (current_question s' !! u)).
Proof.
  split_and!.
  - apply handle_answer_unasked.
  - intros s' out c Hans Hin.
    destruct (current_question s !! u) as [q|] eqn:Hq.
    + exfalso. revert Hans. unfold handle_answer. rewrite Hq. simpl. case_decide.
      * rewrite lookup_insert_eq.
        pose proof (advance_no_restart u (upd_scores <[u := score_of s u + 1]> s))
          as Hadv.
        destruct (advance _ _) as [s1 out1]. intros [= <- <- _].
        apply elem_of_cons in Hin as [Hin|Hin]; [discriminate|done].
      * destruct (user_scores s !! u); [|done].
        pose proof (advance_no_restart u s) as Hadv.
        destruct (advance _ _) as [s1 out1]. intros [= <- <- _].
        apply elem_of_cons in Hin as [Hin|Hin]; [discriminate|done].
    + rewrite (handle_answer_unasked u a s Hq) in Hans. by injection Hans as <- _ _.
  - intros qs e s' out c Hq Hstep. destruct e as [u0|u0 a0|u0 d]; simpl in Hstep.
    + by eapply quiz_keeps_question.
    + by rewrite (handle_answer_keeps_question _ _ _ _ _ _ Hstep).
    + by injection Hstep as <- _ _.
Qed.
